(** * kv-sqlite: the storage semantics of [src/index.ts]

    The program is a TypeScript class [KV] whose methods each run one
    prepared SQL statement against a single SQLite table [kv] guarded by
    three triggers.  The development embeds

    - the table as a finite map from the primary key to the remaining
      columns,
    - the numbers of JavaScript as IEEE 754 doubles, and an expiration
      as the INTEGER or REAL the column makes of one,
    - the three triggers and the statement kinds DELETE, INSERT, REPLACE
      and UPDATE as functions on that map, and
    - the methods [get], [getDel], [set], [del], [increment] and
      [decrement] together with [format]

    and then states and proves the properties of the specification. *)

From stdpp Require Import gmap strings list fin_maps.
From Stdlib Require Import ZArith Lia Floats.

Local Open Scope Z_scope.

(** ** Values *)

(** What an INTEGER column holds after arithmetic.  SQLite integers are
    64-bit and signed; an addition that leaves that range is carried
    out in floating point and the column then holds a REAL.  The float
    itself is not tracked: [Real] stands for any of them. *)
Inductive num : Type :=
  | Int (z : Z)
  | Real.

Global Instance num_eq_dec : EqDecision num.
Proof. solve_decision. Defined.

Definition INT64_MIN : Z := - 2 ^ 63.
Definition INT64_MAX : Z := 2 ^ 63 - 1.

Definition fits_int64 (z : Z) : bool := (INT64_MIN <=? z) && (z <=? INT64_MAX).

(** [a + d] as SQLite evaluates it for an integer [d]. *)
Definition sql_add (a : num) (d : Z) : num :=
  match a with
  | Int z => if fits_int64 (z + d) then Int (z + d) else Real
  | Real => Real
  end.

(** bun:sqlite hands an INTEGER to JavaScript as a [number], which is
    exact up to 2^53 in absolute value. *)
Definition js_number (a : num) : num :=
  match a with
  | Int z => if Z.abs z <=? 2 ^ 53 then Int z else Real
  | Real => Real
  end.

(** *** Numbers

    A JavaScript [number] is an IEEE 754 double, the [float] of the
    kernel; [+] and [*] on numbers are its [add] and [mul]. *)
Abbreviation number := float.

(** The double nearest to an integer, ties to even: the number a whole
    literal denotes, and the number bun:sqlite makes of an INTEGER. *)
Definition number_of_Z (z : Z) : number :=
  SF2Prim (binary_normalize prec emax z 0 false).

(** The whole number a double is, when it is one.  [Prim2SF] gives
    the sign, mantissa and exponent of a double: its value is
    [m * 2 ^ e], negated when [s] is set. *)
Definition Z_of_SF (x : spec_float) : option Z :=
  match x with
  | S754_zero _ => Some 0
  | S754_finite s m e =>
      if 0 <=? e then Some (cond_Zopp s (Z.pos m * 2 ^ e))
      else if Z.pos m mod 2 ^ (- e) =? 0
           then Some (cond_Zopp s (Z.pos m / 2 ^ (- e)))
           else None
  | S754_infinity _ | S754_nan => None
  end.

Definition Z_of_number (x : number) : option Z := Z_of_SF (Prim2SF x).

(** The sign, mantissa and exponent of the double that is the whole
    number [c] (below 2^53), with sign [s]: the mantissa is [c] shifted
    up to 53 bits. *)
Definition canon (s : bool) (c : positive) : spec_float :=
  match 53 - Z.pos (digits2_pos c) with
  | Z.pos p => S754_finite s (Pos.iter xO c p) (- Z.pos p)
  | _ => S754_finite s c 0
  end.

Definition SF_of_Z (z : Z) : spec_float :=
  match z with
  | 0 => S754_zero false
  | Z.pos c => canon false c
  | Z.neg c => canon true c
  end.

(** [x > n] for a double and an integer, decided on their exact values
    (NaN is greater than nothing). *)
Definition number_gt (x : number) (n : Z) : bool :=
  match Prim2SF x with
  | S754_zero _ => n <? 0
  | S754_infinity s => negb s
  | S754_nan => false
  | S754_finite s m e =>
      if 0 <=? e then n <? cond_Zopp s (Z.pos m) * 2 ^ e
      else n * 2 ^ (- e) <? cond_Zopp s (Z.pos m)
  end.

(** A number in a condition: 0, -0 and NaN count as false. *)
Definition falsy (x : number) : bool :=
  match Prim2SF x with
  | S754_zero _ | S754_nan => true
  | S754_infinity _ | S754_finite _ _ _ => false
  end.

Global Instance number_eq_dec : EqDecision number.
Proof.
  intros x y. destruct (Leibniz.eqb x y) eqn:E.
  - left. by apply Leibniz.eqb_spec.
  - right. intros H. apply Leibniz.eqb_spec in H. congruence.
Defined.

(** What the column [expires_at INTEGER] holds when it is not NULL: an
    INTEGER, or a REAL.  Whole seconds are read as the INTEGER. *)
Inductive numeric : Type :=
  | INTEGER (z : Z)
  | REAL (f : number).

Coercion INTEGER : Z >-> numeric.

Global Instance numeric_eq_dec : EqDecision numeric.
Proof. solve_decision. Defined.

(** The type expected of [Some x] is passed on to [x], so that
    [Some 50] can stand for a column that holds 50. *)
Arguments Some {A} & a.

(** What a JavaScript call can raise here: the engine's [SQLiteError]
    with its [code], the [SyntaxError] of [JSON.parse], or any other
    error. *)
Inductive exn : Type :=
  | SQLiteError (code : string)
  | SyntaxError
  | Error (message : string).

Global Instance exn_eq_dec : EqDecision exn.
Proof. solve_decision. Defined.

Inductive outcome (A : Type) : Type :=
  | Return (a : A)
  | Throw (e : exn).

Arguments Return {A} a.
Arguments Throw {A} e.

Global Instance outcome_eq_dec {A} `{EqDecision A} : EqDecision (outcome A).
Proof. solve_decision. Defined.

(** ** The table *)
Module Row.

(** The columns of a row other than its key; this is also the shape of
    the rows the statements return (interface [Result]). *)
Record Result : Type := mkResult {
  json_data : option string;
  counter : num;
  expires_at : option numeric;
  created_at : Z;
  updated_at : Z;
}.

#[global] Instance Result_eq_dec : EqDecision Result.
Proof. solve_decision. Defined.

Definition set_counter (c : num) (r : Result) : Result :=
  mkResult (json_data r) c (expires_at r) (created_at r) (updated_at r).

Definition set_updated_at (t : Z) (r : Result) : Result :=
  mkResult (json_data r) (counter r) (expires_at r) (created_at r) t.

End Row.

(** The table [kv]: [key TEXT NOT NULL PRIMARY KEY] makes it a finite
    map from keys to rows. *)
Abbreviation Store := (gmap string Row.Result).

(** ** The engine: triggers and statement kinds

    [now] is the value of [unixepoch()], which SQLite fixes for the
    whole of one statement, trigger programs included. *)
Module Sql.

(** [v > unixepoch()] and [v <= unixepoch()].  SQLite compares an
    INTEGER with a REAL on their exact values.  A REAL is never NaN
    (a NaN is stored as NULL); here one compares as below every
    integer. *)
Definition gt (v : numeric) (now : Z) : bool :=
  match v with
  | INTEGER e => now <? e
  | REAL f => number_gt f now
  end.

Definition le (v : numeric) (now : Z) : bool :=
  match v with
  | INTEGER e => e <=? now
  | REAL f => negb (number_gt f now)
  end.

(** [expires_at IS NOT NULL AND expires_at <= unixepoch()] *)
Definition expired (now : Z) (r : Row.Result) : bool :=
  match Row.expires_at r with
  | Some e => le e now
  | None => false
  end.

(** [expires_at IS NULL OR expires_at > unixepoch()] *)
Definition live (now : Z) (r : Row.Result) : bool :=
  match Row.expires_at r with
  | None => true
  | Some e => gt e now
  end.

(** The keys of the rows that satisfy a WHERE clause, in the order the
    engine visits them. *)
Definition keys_where (P : string → Row.Result → bool) (st : Store) : list string :=
  (map_to_list (filter (λ kr, P kr.1 kr.2 = true) st)).*1.

(** The row loop of a DELETE over the selected keys.  A row that is
    no longer there (an earlier run of the trigger has removed it) is
    passed over.  Otherwise the BEFORE DELETE trigger program [before]
    runs; then the row, unless the trigger has just removed it, is
    removed and reported (to RETURNING and to the count of changes)
    with the values it had. *)
Fixpoint delete_rows (before : Store → Store) (ks : list string) (st : Store)
    : list Row.Result * Store :=
  match ks with
  | [] => ([], st)
  | k :: ks' =>
      match st !! k with
      | None => delete_rows before ks' st
      | Some old =>
          let st1 := before st in
          if decide (is_Some (st1 !! k)) then
            let '(rs, st2) := delete_rows before ks' (delete k st1) in (old :: rs, st2)
          else delete_rows before ks' st1
      end
  end.

(** Trigger [cleanup_expired_on_delete], BEFORE DELETE ON kv.  Its own
    DELETE does not fire it again: recursive triggers are off. *)
Definition cleanup_expired_on_delete (now : Z) (st : Store) : Store :=
  (delete_rows id (keys_where (λ _ r, expired now r) st) st).2.

(** A DELETE statement with WHERE clause [P]: the rows it removed and
    the table it leaves. *)
Definition delete_where (now : Z) (P : string → Row.Result → bool) (st : Store)
    : list Row.Result * Store :=
  delete_rows (cleanup_expired_on_delete now) (keys_where P st) st.

(** Trigger [cleanup_expired_on_insert], BEFORE INSERT ON kv.  Its
    DELETE is an ordinary one and fires the delete trigger per row. *)
Definition cleanup_expired_on_insert (now : Z) (st : Store) : Store :=
  (delete_where now (λ _ r, expired now r) st).2.

(** Trigger [update_updated_at_on_update], AFTER UPDATE ON kv:
    [UPDATE kv SET updated_at = unixepoch() WHERE key = NEW.key].
    The inner UPDATE does not fire the trigger again. *)
Definition update_updated_at_on_update (now : Z) (new_key : string) (st : Store) : Store :=
  alter (Row.set_updated_at now) new_key st.

(** A number bound to [$expires_at] and stored in the column.  A NaN
    is bound as NULL.  The column has INTEGER affinity: a double that
    is a whole number strictly inside the 64-bit range is stored as
    that INTEGER, any other double as the REAL it is. *)
Definition integer_affinity (x : number) : option numeric :=
  match Prim2SF x with
  | S754_nan => None
  | _ =>
      match Z_of_number x with
      | Some z => if (INT64_MIN <? z) && (z <? INT64_MAX)
                  then Some (INTEGER z) else Some (REAL x)
      | None => Some (REAL x)
      end
  end.

(** The row [INSERT INTO kv (key, json_data, expires_at)] builds from
    its parameters ([exp] is a number or [null]): the other columns
    take their defaults, [0] and [unixepoch()]. *)
Definition new_row (now : Z) (json : option string) (exp : option number) : Row.Result :=
  Row.mkResult json (Int 0) (exp ≫= integer_affinity) now now.

(** [INSERT]: the trigger runs, then the primary key is checked.  A
    conflict aborts the statement and undoes what the trigger did, so
    [None] means the table is as it was. *)
Definition insert (now : Z) (k : string) (json : option string) (exp : option number)
    (st : Store) : option Store :=
  let st1 := cleanup_expired_on_insert now st in
  match st1 !! k with
  | Some _ => None
  | None => Some (<[k := new_row now json exp]> st1)
  end.

(** [REPLACE]: as [INSERT], but a row in the way is removed first
    (without firing the delete trigger: recursive triggers are off). *)
Definition replace (now : Z) (k : string) (json : option string) (exp : option number)
    (st : Store) : Store :=
  let st1 := cleanup_expired_on_insert now st in
  <[k := new_row now json exp]> (delete k st1).

(** [UPDATE kv SET counter = COALESCE(counter, 0) + delta WHERE key = k
    AND live RETURNING ...].  The key is the primary key, so at most
    one row is selected; [counter] is NOT NULL, so COALESCE is the
    identity.  RETURNING reports the values the statement itself wrote:
    as SQLite documents, they do not reflect what triggers change
    afterwards.  So the [updated_at] the AFTER UPDATE trigger stamps is
    in the table but not in the reported row. *)
Definition update_counter (now : Z) (k : string) (delta : Z) (st : Store)
    : option Row.Result * Store :=
  match st !! k with
  | Some r =>
      if live now r then
        let r' := Row.set_counter (sql_add (Row.counter r) delta) r in
        (Some r', update_updated_at_on_update now k (<[k := r']> st))
      else (None, st)
  | None => (None, st)
  end.

End Sql.

(** ** The prepared statements of the class *)
Module statements.

Record InsertParams : Type := mkInsertParams {
  p_key : string;
  p_json_data : option string;
  p_expires_at : option number;
}.

Definition SQLITE_CONSTRAINT_PRIMARYKEY : string := "SQLITE_CONSTRAINT_PRIMARYKEY".

(** [select.get(key)]: the row of [key] if it is live. *)
Definition select (now : Z) (key : string) (st : Store) : option Row.Result :=
  match st !! key with
  | Some r => if Sql.live now r then Some r else None
  | None => None
  end.

(** [deleteSelect.get(key)]: the first row RETURNING reports. *)
Definition deleteSelect (now : Z) (key : string) (st : Store)
    : option Row.Result * Store :=
  let '(rs, st') :=
    Sql.delete_where now (λ k r, bool_decide (k = key) && Sql.live now r) st in
  (head rs, st').

(** [deleteSingle.run(key)] *)
Definition deleteSingle (now : Z) (key : string) (st : Store) : Store :=
  (Sql.delete_where now (λ k _, bool_decide (k = key)) st).2.

(** [DELETE FROM kv WHERE key IN (?, ..., ?)], built by [del]. *)
Definition deleteMultipleQuery (now : Z) (keys : list string) (st : Store) : Store :=
  (Sql.delete_where now (λ k _, bool_decide (k ∈ keys)) st).2.

(** [insertIgnore.run(params)].  [fault] is a failure the engine raises
    for a reason outside this model (lock timeout, I/O), [None] when it
    runs the statement; a failed statement leaves the table as it was. *)
Definition insertIgnore (fault : option exn) (now : Z) (p : InsertParams) (st : Store)
    : exn + Store :=
  match fault with
  | Some e => inl e
  | None =>
      match Sql.insert now (p_key p) (p_json_data p) (p_expires_at p) st with
      | Some st' => inr st'
      | None => inl (SQLiteError SQLITE_CONSTRAINT_PRIMARYKEY)
      end
  end.

(** [insertReplace.run(params)] *)
Definition insertReplace (fault : option exn) (now : Z) (p : InsertParams) (st : Store)
    : exn + Store :=
  match fault with
  | Some e => inl e
  | None => inr (Sql.replace now (p_key p) (p_json_data p) (p_expires_at p) st)
  end.

(** [addToCounter.get({$key, $delta})] *)
Definition addToCounter (now : Z) (key : string) (delta : Z) (st : Store)
    : option Row.Result * Store :=
  Sql.update_counter now key delta st.

End statements.

(** ** The class [KV] *)
Module KV.

(** A JavaScript [Date]: a time value, a whole number of milliseconds
    within 8.64e15 of the epoch, or Invalid Date. *)
Inductive Date : Type :=
  | Time (ms : Z)
  | Invalid_Date.

Global Instance Date_eq_dec : EqDecision Date.
Proof. solve_decision. Defined.

Definition MAX_TIME : Z := 8640000000000000.

(** [new Date(ms)] for a whole number [ms]. *)
Definition new_Date (ms : Z) : Date :=
  if Z.abs ms <=? MAX_TIME then Time ms else Invalid_Date.

(** [new Date(x)] for any number [x]: a NaN, an infinity or a number
    beyond the range gives Invalid Date, any other number the time
    value it has with its fraction cut off. *)
Definition new_Date_number (x : number) : Date :=
  match Prim2SF x with
  | S754_zero _ => Time 0
  | S754_finite s m e =>
      if 0 <=? e then
        if Z.pos m * 2 ^ e <=? MAX_TIME
        then Time (cond_Zopp s (Z.pos m * 2 ^ e)) else Invalid_Date
      else
        if Z.pos m <=? MAX_TIME * 2 ^ (- e)
        then Time (cond_Zopp s (Z.pos m / 2 ^ (- e))) else Invalid_Date
  | S754_infinity _ | S754_nan => Invalid_Date
  end.

(** [d.getTime()]: the time value, [None] for the NaN of Invalid Date.
    A [Time] beyond the range is no date and reads as Invalid Date. *)
Definition getTime (d : Date) : option Z :=
  match d with
  | Time ms => if Z.abs ms <=? MAX_TIME then Some ms else None
  | Invalid_Date => None
  end.

(** [Math.floor(d.getTime() / 1000)].  With the NaN of Invalid Date
    the result is NaN.  A time value [ms] is a whole number within
    8.64e15, for which the quotient of the doubles, rounded down, is
    the whole number [ms / 1000] of [Z] (a division that rounds down):
    the quotient is rounded by far less than the 1/1000 that separates
    it from the next whole number. *)
Definition epoch_seconds (d : Date) : number :=
  match getTime d with
  | Some ms => number_of_Z (ms / 1000)
  | None => nan
  end.

(** The options of [set].  A field is [None] when the object does not
    carry it or carries [undefined]; [ttl] is any number. *)
Record SetOpts : Type := mkSetOpts {
  opt_replace : option bool;
  opt_ttl : option number;
  opt_expiresAt : option Date;
}.

Definition no_opts : SetOpts := mkSetOpts None None None.

(** [if (opts.replace)] *)
Definition truthy (b : option bool) : bool :=
  match b with
  | Some true => true
  | _ => false
  end.

(** The body of [catch (e)] in [set]. *)
Definition set_catch (e : exn) : outcome bool :=
  match e with
  | SQLiteError code =>
      if bool_decide (code = statements.SQLITE_CONSTRAINT_PRIMARYKEY)
      then Return false
      else Throw e
  | _ => Throw e
  end.

(** The first lines of [set]: [expiresAt], a number or [null].
    [Date.now()] is a whole number of milliseconds [Date_now], so
    [Math.floor(Date.now() / 1000)] is the number of [Date_now / 1000];
    the sum with [ttl] is the sum of two doubles. *)
Definition set_expiresAt (Date_now : Z) (opts : SetOpts) : option number :=
  match opt_ttl opts with
  | Some ttl => Some (number_of_Z (Date_now / 1000) + ttl)%float
  | None =>
      match opt_expiresAt opts with
      | Some d => Some (epoch_seconds d)
      | None => None
      end
  end.

(** [data === null ? null : JSON.stringify(data)] *)
Definition set_jsonData {Json} (JSON_stringify : Json → string) (data : option Json)
    : option string :=
  match data with
  | None => None
  | Some d => Some (JSON_stringify d)
  end.

(** [del(...keyOrKeys)] *)
Definition del (now : Z) (keyOrKeys : list string) (st : Store) : Store :=
  match keyOrKeys with
  | [] => st
  | [k] => statements.deleteSingle now k st
  | _ => statements.deleteMultipleQuery now keyOrKeys st
  end.

Section WithJSON.

(** [JSON.stringify] and [JSON.parse] belong to the runtime.  [Json] is
    the type of the values other than [null] that callers store and
    [JSON.stringify] turns into a text; a value of type [option Json]
    is [null] or one of them.  [JSON.parse] may raise and may yield
    [null]. *)
Variable Json : Type.
Variable JSON_stringify : Json → string.
Variable JSON_parse : string → outcome (option Json).

(** The object [format] builds: [data] is [null] or a value. *)
Record Entry : Type := mkEntry {
  data : option Json;
  counter : num;
  expiresAt : option Date;
  createdAt : Date;
  updatedAt : Date;
}.

(** [result.expires_at ? new Date(result.expires_at * 1000) : null].
    A stored 0 is taken to [null] as NULL is.  For an INTEGER [e] the
    product of the doubles is the whole number [e * 1000] whenever that
    is within the range of [Date], and beyond the range otherwise; for
    a REAL it is the product of two doubles. *)
Definition format_expiresAt (expires_at : option numeric) : option Date :=
  match expires_at with
  | Some (INTEGER e) =>
      if bool_decide (e = 0) then None else Some (new_Date (e * 1000))
  | Some (REAL f) =>
      if falsy f then None else Some (new_Date_number (f * 1000)%float)
  | None => None
  end.

(** [format(result)].  [result.counter] is a [number];
    [created_at] and [updated_at] are INTEGERs [s], for which
    [new Date(s * 1000)] is [new_Date] of the whole number
    [s * 1000]. *)
Definition format (result : option Row.Result) : outcome (option Entry) :=
  match result with
  | None => Return None
  | Some r =>
      let parsed :=
        match Row.json_data r with
        | None => Return None
        | Some s => JSON_parse s
        end in
      match parsed with
      | Throw e => Throw e
      | Return d =>
          Return (Some (mkEntry d
            (js_number (Row.counter r))
            (format_expiresAt (Row.expires_at r))
            (new_Date (Row.created_at r * 1000))
            (new_Date (Row.updated_at r * 1000))))
      end
  end.

Definition get (now : Z) (key : string) (st : Store) : outcome (option Entry) :=
  format (statements.select now key st).

Definition getDel (now : Z) (key : string) (st : Store) : outcome (option Entry) * Store :=
  let '(r, st') := statements.deleteSelect now key st in (format r, st').

(** [set(key, data, opts)].  [Date_now] is what [Date.now()] reads,
    [now] what [unixepoch()] reads when the statement runs. *)
Definition set (Date_now : Z) (fault : option exn) (now : Z)
    (key : string) (data : option Json) (opts : SetOpts) (st : Store)
    : outcome bool * Store :=
  let expiresAt := set_expiresAt Date_now opts in
  let jsonData := set_jsonData JSON_stringify data in
  let params := statements.mkInsertParams key jsonData expiresAt in
  if truthy (opt_replace opts) then
    match statements.insertReplace fault now params st with
    | inr st' => (Return true, st')
    | inl e => (Throw e, st)
    end
  else
    match statements.insertIgnore fault now params st with
    | inr st' => (Return true, st')
    | inl e => (set_catch e, st)
    end.

Definition addToCounter (now : Z) (key : string) (delta : Z) (st : Store)
    : outcome (option Entry) * Store :=
  let '(r, st') := statements.addToCounter now key delta st in (format r, st').

Definition increment (now : Z) (key : string) (st : Store) :=
  addToCounter now key 1 st.

Definition decrement (now : Z) (key : string) (st : Store) :=
  addToCounter now key (-1) st.

End WithJSON.

Arguments mkEntry {Json}.
Arguments data {Json}.
Arguments counter {Json}.
Arguments expiresAt {Json}.
Arguments createdAt {Json}.
Arguments updatedAt {Json}.
Arguments format {Json}.
Arguments get {Json}.
Arguments getDel {Json}.
Arguments set {Json}.
Arguments addToCounter {Json}.
Arguments increment {Json}.
Arguments decrement {Json}.

End KV.

(** A whole number of milliseconds where a [Date] is expected stands
    for [new Date] of it. *)
Coercion KV.new_Date : Z >-> KV.Date.

(** A runtime for running the definitions: the values [true] and
    [false] with the texts [JSON.stringify] gives them. *)
Module Booleans.

Definition stringify (b : bool) : string := if b then "true" else "false".

Definition parse (s : string) : outcome (option bool) :=
  if bool_decide (s = "true") then Return (Some true)
  else if bool_decide (s = "false") then Return (Some false)
  else if bool_decide (s = "null") then Return None
  else Throw SyntaxError.

End Booleans.

(** ** Sequences of calls *)
Module Trace.

Section WithJSON.

Variable Json : Type.
Variable JSON_stringify : Json → string.
Variable JSON_parse : string → outcome (option Json).

(** A call of a method of the class, with what [set] reads besides the
    table: [Date.now()] and whether the engine fails. *)
Inductive call : Type :=
  | call_get (key : string)
  | call_getDel (key : string)
  | call_set (key : string) (data : option Json) (opts : KV.SetOpts)
      (Date_now : Z) (fault : option exn)
  | call_del (keys : list string)
  | call_increment (key : string)
  | call_decrement (key : string).

(** The table after a call made when [unixepoch()] is [now]. *)
Definition step (now : Z) (c : call) (st : Store) : Store :=
  match c with
  | call_get _ => st
  | call_getDel k => (KV.getDel JSON_parse now k st).2
  | call_set k d o dn f => (KV.set JSON_stringify dn f now k d o st).2
  | call_del ks => KV.del now ks st
  | call_increment k => (KV.increment JSON_parse now k st).2
  | call_decrement k => (KV.decrement JSON_parse now k st).2
  end.

(** Calls in sequence, each with its time. *)
Definition run (calls : list (Z * call)) (st : Store) : Store :=
  foldl (λ s tc, step tc.1 tc.2 s) st calls.

Definition is_increment (key : string) (c : call) : bool :=
  match c with
  | call_increment k => bool_decide (k = key)
  | _ => false
  end.

Definition is_decrement (key : string) (c : call) : bool :=
  match c with
  | call_decrement k => bool_decide (k = key)
  | _ => false
  end.

(** How many of the calls satisfy [P]. *)
Definition count (P : call → bool) (calls : list (Z * call)) : Z :=
  Z.of_nat (length (filter (λ tc, P tc.2 = true) calls)).

(** Whether a call writes a row for [key] with [set]. *)
Definition is_set (key : string) (c : call) : bool :=
  match c with
  | call_set k _ _ _ _ => bool_decide (k = key)
  | _ => false
  end.

(** What a call hands back to its caller: an entry or [null], the
    boolean of [set], or nothing ([del]). *)
Inductive ret : Type :=
  | ret_entry (e : option (KV.Entry Json))
  | ret_bool (b : bool)
  | ret_void.

Definition entry_result (o : outcome (option (KV.Entry Json))) : outcome ret :=
  match o with
  | Return e => Return (ret_entry e)
  | Throw x => Throw x
  end.

(** The result of a call made when [unixepoch()] is [now]. *)
Definition result (now : Z) (c : call) (st : Store) : outcome ret :=
  match c with
  | call_get k => entry_result (KV.get JSON_parse now k st)
  | call_getDel k => entry_result (KV.getDel JSON_parse now k st).1
  | call_set k d o dn f =>
      match (KV.set JSON_stringify dn f now k d o st).1 with
      | Return b => Return (ret_bool b)
      | Throw x => Throw x
      end
  | call_del _ => Return ret_void
  | call_increment k => entry_result (KV.increment JSON_parse now k st).1
  | call_decrement k => entry_result (KV.decrement JSON_parse now k st).1
  end.

(** The results of calls in sequence. *)
Fixpoint results (calls : list (Z * call)) (st : Store) : list (outcome ret) :=
  match calls with
  | [] => []
  | (t, c) :: rest => result t c st :: results rest (step t c st)
  end.

(** Whether a call names [key]. *)
Definition touches (key : string) (c : call) : bool :=
  match c with
  | call_get k | call_getDel k | call_increment k | call_decrement k
  | call_set k _ _ _ _ => bool_decide (k = key)
  | call_del ks => bool_decide (key ∈ ks)
  end.

End WithJSON.

Arguments call_get {Json}.
Arguments call_getDel {Json}.
Arguments call_set {Json}.
Arguments call_del {Json}.
Arguments call_increment {Json}.
Arguments call_decrement {Json}.
Arguments step {Json}.
Arguments run {Json}.
Arguments is_increment {Json}.
Arguments is_decrement {Json}.
Arguments is_set {Json}.
Arguments count {Json}.
Arguments touches {Json}.
Arguments ret_entry {Json}.
Arguments ret_bool {Json}.
Arguments ret_void {Json}.
Arguments result {Json}.
Arguments results {Json}.

End Trace.

(** ** The helper of the test file

    [insert(db, {key, json_data, counter, created_at, expires_at})] of
    [index.test.ts] writes a row past the class:
    [INSERT INTO kv (key, json_data, counter, created_at, expires_at)].
    The insert trigger and the primary key apply as for any INSERT;
    [updated_at] takes its default. *)
Module Tests.

Record InsertArgs : Type := mkInsertArgs {
  key : string;
  json_data : option string;
  counter : Z;
  created_at : Z;
  expires_at : option Z;
}.

Definition insert (now : Z) (a : InsertArgs) (st : Store) : exn + Store :=
  let st1 := Sql.cleanup_expired_on_insert now st in
  match st1 !! key a with
  | Some _ => inl (SQLiteError statements.SQLITE_CONSTRAINT_PRIMARYKEY)
  | None =>
      inr (<[key a := Row.mkResult (json_data a) (Int (counter a))
                        (INTEGER <$> expires_at a) (created_at a) now]> st1)
  end.

End Tests.

(** ** Vocabulary of the specification *)
Module Spec.

(** An expiration lies after [now]; it lies at or before [now]. *)
Definition after (now : Z) (v : numeric) : Prop :=
  match v with
  | INTEGER e => now < e
  | REAL f => number_gt f now = true
  end.

Definition at_or_before (now : Z) (v : numeric) : Prop :=
  match v with
  | INTEGER e => e ≤ now
  | REAL f => number_gt f now = false
  end.

(** "Live": the expiration is absent or in the future. *)
Definition is_live (now : Z) (r : Row.Result) : Prop :=
  Row.expires_at r = None ∨ ∃ e, Row.expires_at r = Some e ∧ after now e.

(** "Expired": the expiration is present and at or before now. *)
Definition is_expired (now : Z) (r : Row.Result) : Prop :=
  ∃ e, Row.expires_at r = Some e ∧ at_or_before now e.

(** The table holds a live row for [k]. *)
Definition has_live (now : Z) (k : string) (st : Store) : Prop :=
  ∃ r, st !! k = Some r ∧ is_live now r.

(** The table with its expired rows taken out. *)
Definition unexpired (now : Z) (st : Store) : Store :=
  filter (λ kr, Sql.expired now kr.2 = false) st.

(** Two tables hold the same rows once those expired by [now] are
    left out. *)
Definition same_live (now : Z) (st1 st2 : Store) : Prop :=
  unexpired now st1 = unexpired now st2.

(** No expired row is stored. *)
Definition no_expired (now : Z) (st : Store) : Prop :=
  ∀ k r, st !! k = Some r → ¬ is_expired now r.

(** A value that [JSON.parse] reads back from what [JSON.stringify]
    wrote; [null] is stored as NULL and needs neither. *)
Definition serializable {Json} (JSON_stringify : Json → string)
    (JSON_parse : string → outcome (option Json)) (data : option Json) : Prop :=
  match data with
  | None => True
  | Some d => JSON_parse (JSON_stringify d) = Return (Some d)
  end.

(** Every row was created no later than it was last updated, and
    neither lies after [now]. *)
Definition timestamps_ok (now : Z) (st : Store) : Prop :=
  ∀ k r, st !! k = Some r → Row.created_at r ≤ Row.updated_at r ≤ now.

(** Every stored payload is a text [JSON.parse] accepts. *)
Definition payloads_parse {Json} (JSON_parse : string → outcome (option Json))
    (st : Store) : Prop :=
  ∀ k r s, st !! k = Some r → Row.json_data r = Some s →
           ∃ v, JSON_parse s = Return v.

(** The times of the calls never go backwards, starting from [t0]. *)
Fixpoint monotone {A} (t0 : Z) (calls : list (Z * A)) : Prop :=
  match calls with
  | [] => True
  | (t, _) :: rest => t0 ≤ t ∧ monotone t rest
  end.

End Spec.

(** ** Tables to run the definitions on *)
Module Samples.

(** [a] never expires, [b] expired at 50, [c] expires at 1000. *)
Definition abc : Store :=
  <["a" := Row.mkResult (Some "true") (Int 0) None 10 10]>
  (<["b" := Row.mkResult (Some "test-value") (Int 1) (Some 50) 10 10]>
  (<["c" := Row.mkResult None (Int 7) (Some 1000) 20 30]> ∅)).

Definition replace_opts : KV.SetOpts := KV.mkSetOpts (Some true) None None.

Definition ttl_opts (ttl : Z) : KV.SetOpts :=
  KV.mkSetOpts None (Some (number_of_Z ttl)) None.

End Samples.

(** * Facts about numbers *)
Module FloatFacts.

Lemma digits2_pos_bound (m : positive) (n : Z) :
  0 ≤ n → Z.pos m < 2 ^ n → Z.pos (digits2_pos m) ≤ n.
Proof.
  revert n. induction m as [m IH|m IH|]; intros n Hn Hlt; simpl.
  - assert (0 < n) by (destruct (Z.eq_dec n 0) as [->|]; [simpl in Hlt; lia|lia]).
    replace n with (Z.succ (n - 1)) in Hlt by lia. rewrite Z.pow_succ_r in Hlt by lia.
    specialize (IH (n - 1)). lia.
  - assert (0 < n) by (destruct (Z.eq_dec n 0) as [->|]; [simpl in Hlt; lia|lia]).
    replace n with (Z.succ (n - 1)) in Hlt by lia. rewrite Z.pow_succ_r in Hlt by lia.
    specialize (IH (n - 1)). lia.
  - destruct (Z.eq_dec n 0) as [->|]; [simpl in Hlt; lia|lia].
Qed.

Lemma digits2_pos_iter_xO (m k : positive) :
  Z.pos (digits2_pos (Pos.iter xO m k)) = Z.pos (digits2_pos m) + Z.pos k.
Proof.
  induction k as [|k IH] using Pos.peano_ind.
  - simpl. lia.
  - rewrite Pos.iter_succ. simpl. lia.
Qed.

Lemma pos_iter_xO (m k : positive) :
  Z.pos (Pos.iter xO m k) = Z.pos m * 2 ^ Z.pos k.
Proof.
  induction k as [|k IH] using Pos.peano_ind.
  - simpl. lia.
  - rewrite Pos.iter_succ, Pos2Z.inj_succ, Z.pow_succ_r by lia.
    rewrite Pos2Z.inj_xO, IH. lia.
Qed.

Lemma iter_pos_shr_1 (p m : positive) :
  iter_pos shr_1 p (Build_shr_record (Z.pos (Pos.iter xO m p)) false false)
  = Build_shr_record (Z.pos m) false false.
Proof.
  revert m. induction p as [p IH|p IH|]; intros m; simpl.
  - by rewrite !IH.
  - by rewrite !IH.
  - done.
Qed.

Lemma binary_round_aux_canonical (s : bool) (m : positive) (e : Z) :
  Z.pos (digits2_pos m) = 53 → -1074 ≤ e ≤ 971 →
  binary_round_aux prec emax s (Z.pos m) e loc_Exact = S754_finite s m e.
Proof.
  intros Hd He. unfold binary_round_aux, shr_fexp. simpl Zdigits2. rewrite Hd.
  assert (fexp prec emax (53 + e) - e = 0) as Hf
    by (unfold fexp, SpecFloat.emin, prec, emax; lia).
  rewrite Hf. simpl shr. cbn [shr_m shr_record_of_loc loc_of_shr_record round_nearest_even].
  simpl Zdigits2. rewrite Hd, Hf. simpl shr. cbn [fst snd shr_m].
  assert ((e <=? emax - prec) = true) as ->
    by (apply Z.leb_le; unfold emax, prec; lia).
  reflexivity.
Qed.

Lemma canon_spec s c :
  Z.pos c < 2 ^ 53 →
  ∃ m e, canon s c = S754_finite s m e ∧ -52 ≤ e ≤ 0
    ∧ Z.pos (digits2_pos m) = 53
    ∧ Z.pos m = Z.pos c * 2 ^ (- e).
Proof.
  intros Hlt. pose proof (digits2_pos_bound c 53 ltac:(lia) Hlt) as Hd.
  unfold canon. destruct (53 - Z.pos (digits2_pos c)) as [|p|p] eqn:E; try lia.
  - exists c, 0. split; [done|]. split; [lia|]. split; [lia|]. lia.
  - exists (Pos.iter xO c p), (- Z.pos p). split; [done|]. split; [lia|].
    split; [rewrite digits2_pos_iter_xO; lia|].
    by rewrite pos_iter_xO, Z.opp_involutive.
Qed.

Lemma valid_canon s c : Z.pos c < 2 ^ 53 → valid_binary (canon s c) = true.
Proof.
  intros Hlt. destruct (canon_spec s c Hlt) as (m & e & -> & He & Hd & _).
  unfold SpecFloat.valid_binary, bounded, canonical_mantissa. rewrite Hd.
  apply andb_true_iff.
  split; [apply Z.eqb_eq|apply Z.leb_le]; unfold fexp, SpecFloat.emin, prec, emax; lia.
Qed.

(** Rounding [c * 2 ^ k] given with exponent [- k] gives the double
    that is [c]: nothing is rounded off. *)
Lemma binary_round_whole (s : bool) (c P : positive) (k : Z) :
  Z.pos c < 2 ^ 53 → 0 ≤ k ≤ 1000 → Z.pos P = Z.pos c * 2 ^ k →
  binary_round prec emax s P (- k) = canon s c.
Proof.
  intros Hlt Hk HP. pose proof (digits2_pos_bound c 53 ltac:(lia) Hlt) as Hd.
  assert (Z.pos (digits2_pos P) = Z.pos (digits2_pos c) + k) as HdP.
  { destruct k as [|j|j]; [|
      |lia].
    - assert (P = c) as -> by lia. lia.
    - assert (P = Pos.iter xO c j) as ->
        by (apply Pos2Z.inj; by rewrite pos_iter_xO).
      apply digits2_pos_iter_xO. }
  unfold binary_round. rewrite HdP.
  assert (fexp prec emax (Z.pos (digits2_pos c) + k + - k) = Z.pos (digits2_pos c) - 53) as ->.
  { unfold fexp, SpecFloat.emin, prec, emax. lia. }
  unfold shl_align, canon.
  destruct (Z.pos (digits2_pos c) - 53 - - k) as [|p|q] eqn:E.
  - (* the mantissa has 53 bits as it is *)
    rewrite binary_round_aux_canonical by lia.
    destruct k as [|j|j]; [| |lia].
    + assert (P = c) as -> by lia.
      by replace (53 - Z.pos (digits2_pos c)) with 0 by lia.
    + assert (P = Pos.iter xO c j) as ->
        by (apply Pos2Z.inj; by rewrite pos_iter_xO).
      by replace (53 - Z.pos (digits2_pos c)) with (Z.pos j) by lia.
  - (* more than 53 bits: [p] zero bits are shifted out *)
    destruct k as [|j|j]; [lia| |lia].
    unfold binary_round_aux, shr_fexp. simpl Zdigits2. rewrite HdP.
    assert (fexp prec emax (Z.pos (digits2_pos c) + Z.pos j + - Z.pos j) - - Z.pos j
            = Z.pos p) as ->
      by (unfold fexp, SpecFloat.emin, prec, emax; lia).
    cbn [shr shr_record_of_loc].
    destruct (53 - Z.pos (digits2_pos c)) as [|q|q] eqn:E'; [| |lia].
    + assert (p = j) as -> by lia.
      assert (P = Pos.iter xO c j) as ->
        by (apply Pos2Z.inj; by rewrite pos_iter_xO).
      rewrite iter_pos_shr_1.
      cbn [shr_m loc_of_shr_record round_nearest_even]. simpl Zdigits2.
      assert (fexp prec emax (Z.pos (digits2_pos c) + (- Z.pos j + Z.pos j))
              - (- Z.pos j + Z.pos j) = 0) as ->
        by (unfold fexp, SpecFloat.emin, prec, emax; lia).
      cbn [shr shr_record_of_loc shr_m].
      assert ((- Z.pos j + Z.pos j <=? emax - prec) = true) as ->
        by (apply Z.leb_le; unfold emax, prec; lia).
      f_equal. lia.
    + assert (j = (p + q)%positive) as -> by lia.
      assert (P = Pos.iter xO (Pos.iter xO c q) p) as ->.
      { apply Pos2Z.inj. rewrite HP, !pos_iter_xO, Pos2Z.inj_add.
        rewrite Z.pow_add_r by lia. lia. }
      rewrite iter_pos_shr_1.
      cbn [shr_m loc_of_shr_record round_nearest_even]. simpl Zdigits2.
      rewrite digits2_pos_iter_xO.
      assert (fexp prec emax (Z.pos (digits2_pos c) + Z.pos q
                              + (- Z.pos (p + q) + Z.pos p))
              - (- Z.pos (p + q) + Z.pos p) = 0) as ->
        by (unfold fexp, SpecFloat.emin, prec, emax; lia).
      cbn [shr shr_record_of_loc shr_m].
      assert ((- Z.pos (p + q) + Z.pos p <=? emax - prec) = true) as ->
        by (apply Z.leb_le; unfold emax, prec; lia).
      f_equal. lia.
  - (* fewer than 53 bits: the mantissa is shifted up *)
    assert (53 - Z.pos (digits2_pos c) = Z.pos (match k with Z.pos j => q + j | _ => q end)%positive)
      as ->.
    { destruct k as [|j|j]; lia. }
    rewrite binary_round_aux_canonical.
    + destruct k as [|j|j]; [| |lia].
      * assert (P = c) as -> by lia. f_equal. lia.
      * assert (P = Pos.iter xO c j) as ->
          by (apply Pos2Z.inj; by rewrite pos_iter_xO).
        rewrite <- Pos.iter_add. f_equal. lia.
    + rewrite digits2_pos_iter_xO. lia.
    + lia.
Qed.

Lemma binary_normalize_whole (z k : Z) :
  Z.abs z < 2 ^ 53 → 0 ≤ k ≤ 1000 →
  binary_normalize prec emax (z * 2 ^ k) (- k) false = SF_of_Z z.
Proof.
  intros Hz Hk. assert (0 < 2 ^ k) by (apply Z.pow_pos_nonneg; lia).
  unfold binary_normalize. destruct (z * 2 ^ k) as [|P|P] eqn:E.
  - assert (z = 0) as -> by nia. done.
  - destruct z as [|c|c]; [lia| |lia]. apply binary_round_whole; lia.
  - destruct z as [|c|c]; [lia|lia|]. apply binary_round_whole; lia.
Qed.

Lemma valid_SF_of_Z z : Z.abs z < 2 ^ 53 → valid_binary (SF_of_Z z) = true.
Proof. destruct z; [done|apply valid_canon..]. Qed.

Lemma Prim2SF_number_of_Z z :
  Z.abs z < 2 ^ 53 → Prim2SF (number_of_Z z) = SF_of_Z z.
Proof.
  intros Hz. unfold number_of_Z.
  pose proof (binary_normalize_whole z 0 Hz ltac:(lia)) as Hn.
  rewrite Z.mul_1_r in Hn. change (- 0) with 0 in Hn. rewrite Hn.
  by apply Prim2SF_SF2Prim, valid_SF_of_Z.
Qed.

Lemma Z_of_SF_of_Z z : Z.abs z < 2 ^ 53 → Z_of_SF (SF_of_Z z) = Some z.
Proof.
  intros Hz. destruct z as [|c|c]; [done| |].
  - destruct (canon_spec false c ltac:(lia)) as (m & e & Hc & He & _ & Hm).
    simpl. rewrite Hc. simpl. destruct (Z.leb_spec 0 e).
    + assert (e = 0) as -> by lia. simpl in *. f_equal. lia.
    + rewrite Hm, Z.mod_mul by lia. simpl. rewrite Z.div_mul by lia. done.
  - destruct (canon_spec true c ltac:(lia)) as (m & e & Hc & He & _ & Hm).
    simpl. rewrite Hc. simpl. destruct (Z.leb_spec 0 e).
    + assert (e = 0) as -> by lia. simpl in *. f_equal. lia.
    + rewrite Hm, Z.mod_mul by lia. simpl. rewrite Z.div_mul by lia. done.
Qed.

Lemma Z_of_number_of_Z z : Z.abs z < 2 ^ 53 → Z_of_number (number_of_Z z) = Some z.
Proof.
  intros Hz. unfold Z_of_number. rewrite Prim2SF_number_of_Z by done.
  by apply Z_of_SF_of_Z.
Qed.

Lemma shl_align_value m e ez :
  ez ≤ e → Z.pos (fst (shl_align m e ez)) = Z.pos m * 2 ^ (e - ez).
Proof.
  intros Hle. unfold shl_align. destruct (ez - e) as [|p|p] eqn:E; [|lia|].
  - replace (e - ez) with 0 by lia. simpl. lia.
  - simpl. rewrite pos_iter_xO. f_equal. f_equal. lia.
Qed.

Lemma SF_of_Z_finite z :
  z ≠ 0 → Z.abs z < 2 ^ 53 →
  ∃ m e, SF_of_Z z = S754_finite (z <? 0) m e ∧ -52 ≤ e ≤ 0
    ∧ cond_Zopp (z <? 0) (Z.pos m) = z * 2 ^ (- e).
Proof.
  intros Hz Hlt. destruct z as [|c|c]; [done| |].
  - destruct (canon_spec false c ltac:(lia)) as (m & e & Hc & He & _ & Hm).
    exists m, e. by rewrite <- Hm.
  - destruct (canon_spec true c ltac:(lia)) as (m & e & Hc & He & _ & Hm).
    exists m, e. split; [done|]. split; [done|]. simpl. lia.
Qed.

(** Whole numbers below 2^53 add without rounding. *)
Lemma SF64add_whole a b :
  Z.abs a < 2 ^ 53 → Z.abs b < 2 ^ 53 → Z.abs (a + b) < 2 ^ 53 →
  SF64add (SF_of_Z a) (SF_of_Z b) = SF_of_Z (a + b).
Proof.
  intros Ha Hb Hab.
  destruct (Z.eq_dec a 0) as [->|Ha0].
  { destruct b as [|c|c]; [done| |].
    - destruct (canon_spec false c ltac:(lia)) as (m & e & Hc & _). simpl. by rewrite Hc.
    - destruct (canon_spec true c ltac:(lia)) as (m & e & Hc & _). simpl. by rewrite Hc. }
  destruct (Z.eq_dec b 0) as [->|Hb0].
  { rewrite Z.add_0_r. destruct a as [|c|c]; [done| |].
    - destruct (canon_spec false c ltac:(lia)) as (m & e & Hc & _). simpl. by rewrite Hc.
    - destruct (canon_spec true c ltac:(lia)) as (m & e & Hc & _). simpl. by rewrite Hc. }
  destruct (SF_of_Z_finite a Ha0 Ha) as (ma & ea & -> & Hea & Hma).
  destruct (SF_of_Z_finite b Hb0 Hb) as (mb & eb & -> & Heb & Hmb).
  unfold SF64add, SFadd.
  change (IntDef.Z.min ea eb) with (Z.min ea eb).
  set (ez := Z.min ea eb).
  assert (ez ≤ ea ∧ ez ≤ eb ∧ -52 ≤ ez ≤ 0) as (H1 & H2 & H3) by (unfold ez; lia).
  assert (cond_Zopp (a <? 0) (Z.pos (fst (shl_align ma ea ez)))
          + cond_Zopp (b <? 0) (Z.pos (fst (shl_align mb eb ez)))
          = (a + b) * 2 ^ (- ez)) as ->.
  { rewrite !shl_align_value by done.
    assert (forall s m k, cond_Zopp s (m * k) = cond_Zopp s m * k) as Hc
      by (intros [] ? ?; simpl; lia).
    rewrite !Hc, Hma, Hmb.
    rewrite <- !Z.mul_assoc, <- !Z.pow_add_r by lia.
    replace (- ea + (ea - ez)) with (- ez) by lia.
    replace (- eb + (eb - ez)) with (- ez) by lia. lia. }
  replace ez with (- - ez) at 2 by lia.
  apply binary_normalize_whole; lia.
Qed.

Lemma Z_of_number_add a b :
  Z.abs a < 2 ^ 53 → Z.abs b < 2 ^ 53 → Z.abs (a + b) < 2 ^ 53 →
  Z_of_number (number_of_Z a + number_of_Z b)%float = Some (a + b).
Proof.
  intros Ha Hb Hab. unfold Z_of_number.
  rewrite add_spec, !Prim2SF_number_of_Z, SF64add_whole by done.
  by apply Z_of_SF_of_Z.
Qed.

(** *** What the column stores *)

Lemma integer_affinity_whole x z :
  Z_of_number x = Some z → INT64_MIN < z < INT64_MAX →
  Sql.integer_affinity x = Some (INTEGER z).
Proof.
  intros Hz Hr. unfold Sql.integer_affinity. rewrite Hz.
  assert ((INT64_MIN <? z) && (z <? INT64_MAX) = true) as ->
    by (apply andb_true_iff; split; apply Z.ltb_lt; lia).
  unfold Z_of_number in Hz. by destruct (Prim2SF x).
Qed.

Lemma integer_affinity_number_of_Z z :
  Z.abs z < 2 ^ 53 → Sql.integer_affinity (number_of_Z z) = Some (INTEGER z).
Proof.
  intros Hz. apply integer_affinity_whole; [by apply Z_of_number_of_Z|].
  unfold INT64_MIN, INT64_MAX. lia.
Qed.

(** A sum with NaN is NaN, which is stored as NULL. *)
Lemma integer_affinity_add_nan x : Sql.integer_affinity (x + nan)%float = None.
Proof.
  unfold Sql.integer_affinity, Z_of_number. rewrite add_spec.
  change (Prim2SF nan) with S754_nan. by destruct (Prim2SF x).
Qed.

Lemma integer_affinity_add a b :
  Z.abs a < 2 ^ 53 → Z.abs b < 2 ^ 53 → Z.abs (a + b) < 2 ^ 53 →
  Sql.integer_affinity (number_of_Z a + number_of_Z b)%float = Some (INTEGER (a + b)).
Proof.
  intros Ha Hb Hab. apply integer_affinity_whole; [by apply Z_of_number_add|].
  unfold INT64_MIN, INT64_MAX. lia.
Qed.

End FloatFacts.

(** * Facts about the engine *)
Module SqlFacts.
Import Sql.

Lemma gt_not_le v now : gt v now = negb (le v now).
Proof.
  destruct v as [e|f]; simpl; [|by rewrite negb_involutive].
  destruct (Z.leb_spec e now), (Z.ltb_spec now e); simpl; lia || done.
Qed.

Lemma gt_after v now : gt v now = true ↔ Spec.after now v.
Proof. destruct v as [e|f]; simpl; [apply Z.ltb_lt|done]. Qed.

Lemma le_at_or_before v now : le v now = true ↔ Spec.at_or_before now v.
Proof.
  destruct v as [e|f]; simpl; [apply Z.leb_le|apply negb_true_iff].
Qed.

(** An integer above [n * 2 ^ k] is above [n' * 2 ^ k] for [n' <= n]. *)
Lemma number_gt_mono x n n' : n' ≤ n → number_gt x n = true → number_gt x n' = true.
Proof.
  intros Hle. unfold number_gt. destruct (Prim2SF x) as [s|s| |s m e]; try done.
  - rewrite !Z.ltb_lt. lia.
  - destruct (Z.leb_spec 0 e); rewrite !Z.ltb_lt; [lia|].
    assert (0 < 2 ^ (- e)) by (apply Z.pow_pos_nonneg; lia).
    nia.
Qed.

Lemma after_mono v now now' : now ≤ now' → Spec.after now' v → Spec.after now v.
Proof.
  intros Hle. destruct v as [e|f]; simpl; [lia|]. by apply number_gt_mono.
Qed.

Lemma at_or_before_mono v now now' :
  now ≤ now' → Spec.at_or_before now v → Spec.at_or_before now' v.
Proof.
  intros Hle. destruct v as [e|f]; simpl; [lia|].
  intros Hn. destruct (number_gt f now') eqn:E; [|done].
  by rewrite (number_gt_mono _ _ _ Hle E) in Hn.
Qed.

Lemma live_not_expired now r : live now r = negb (expired now r).
Proof.
  unfold live, expired. destruct (Row.expires_at r) as [e|]; [|done].
  apply gt_not_le.
Qed.

Lemma elem_of_keys_where P (st : Store) k :
  k ∈ keys_where P st ↔ ∃ r, st !! k = Some r ∧ P k r = true.
Proof.
  unfold keys_where. rewrite list_elem_of_fmap. split.
  - intros [[k' r] [-> Hin]]. apply elem_of_map_to_list in Hin.
    apply map_lookup_filter_Some in Hin as [Hl HP]. by exists r.
  - intros (r & Hl & HP). exists (k, r). split; [done|].
    apply elem_of_map_to_list. by apply map_lookup_filter_Some.
Qed.

Lemma NoDup_keys_where P (st : Store) : NoDup (keys_where P st).
Proof. apply NoDup_fst_map_to_list. Qed.

Lemma keys_where_nil P (st : Store) :
  keys_where P st = [] ↔ ∀ k r, st !! k = Some r → P k r = false.
Proof.
  split.
  - intros Hnil k r Hl. destruct (P k r) eqn:HP; [|done].
    assert (k ∈ keys_where P st) as Hin by (apply elem_of_keys_where; eauto).
    rewrite Hnil in Hin. by apply elem_of_nil in Hin.
  - intros Hall. destruct (keys_where P st) as [|k ks] eqn:E; [done|].
    assert (k ∈ keys_where P st) as Hin by (rewrite E; left).
    apply elem_of_keys_where in Hin as (r & Hl & HP).
    rewrite (Hall _ _ Hl) in HP. done.
Qed.

Lemma live_is_live now r : live now r = true ↔ Spec.is_live now r.
Proof.
  unfold live, Spec.is_live. destruct (Row.expires_at r) as [e|].
  - rewrite gt_after. split; [intros; right; eauto|].
    intros [|(e' & [= <-] & ?)]; done.
  - split; [by left|done].
Qed.

Lemma expired_is_expired now r : expired now r = true ↔ Spec.is_expired now r.
Proof.
  unfold expired, Spec.is_expired. destruct (Row.expires_at r) as [e|].
  - rewrite le_at_or_before. split; [eauto|]. by intros (e' & [= <-] & ?).
  - split; [done|]. by intros (? & ? & _).
Qed.

Lemma not_live_is_expired now r : live now r = false ↔ Spec.is_expired now r.
Proof.
  rewrite live_not_expired, negb_false_iff. apply expired_is_expired.
Qed.

Lemma lookup_unexpired_Some now (st : Store) k r :
  Spec.unexpired now st !! k = Some r ↔ st !! k = Some r ∧ expired now r = false.
Proof. unfold Spec.unexpired. by rewrite map_lookup_filter_Some. Qed.

Lemma lookup_unexpired_None now (st : Store) k :
  Spec.unexpired now st !! k = None ↔ ∀ r, st !! k = Some r → expired now r = true.
Proof.
  unfold Spec.unexpired. rewrite map_lookup_filter_None. split.
  - intros [Hn|Hall] r Hl; [congruence|].
    specialize (Hall r Hl). simpl in Hall. by destruct (expired now r).
  - intros Hall. right. intros r Hl. simpl. rewrite (Hall r Hl). done.
Qed.

Lemma unexpired_idemp now (st : Store) :
  Spec.unexpired now (Spec.unexpired now st) = Spec.unexpired now st.
Proof.
  apply map_eq. intros k. apply option_eq. intros r.
  rewrite !lookup_unexpired_Some. tauto.
Qed.

Lemma unexpired_delete now (st : Store) k :
  Spec.unexpired now (delete k st) = delete k (Spec.unexpired now st).
Proof. apply map_filter_delete. Qed.

(** *** The row loop *)

Lemma delete_rows_snd_cons before k ks (st : Store) :
  (delete_rows before (k :: ks) st).2
  = match st !! k with
    | None => (delete_rows before ks st).2
    | Some _ => (delete_rows before ks (delete k (before st))).2
    end.
Proof.
  simpl. destruct (st !! k) as [old|]; [|done].
  case_decide as E.
  - by destruct (delete_rows before ks (delete k (before st))).
  - rewrite delete_id; [done|]. by apply eq_None_not_Some.
Qed.

Lemma lookup_delete_rows_id ks (st : Store) k :
  (delete_rows id ks st).2 !! k = if decide (k ∈ ks) then None else st !! k.
Proof.
  revert st. induction ks as [|k0 ks IH]; intros st.
  - rewrite decide_False by apply not_elem_of_nil. done.
  - rewrite delete_rows_snd_cons.
    assert ((delete_rows id ks (delete k0 st)).2 !! k
            = if decide (k ∈ k0 :: ks) then None else st !! k) as Hdel.
    { rewrite IH.
      destruct (decide (k ∈ ks)) as [H1|H1], (decide (k ∈ k0 :: ks)) as [H2|H2];
        try done.
      + exfalso. apply H2. by right.
      + apply elem_of_cons in H2 as [->|?]; [|done]. apply lookup_delete_eq.
      + apply lookup_delete_ne. intros ->. apply H2. left. }
    destruct (st !! k0) as [old|] eqn:E; [exact Hdel|].
    rewrite <- Hdel. by rewrite (delete_id _ _ E).
Qed.

Lemma cleanup_expired_on_delete_unexpired now (st : Store) :
  cleanup_expired_on_delete now st = Spec.unexpired now st.
Proof.
  apply map_eq. intros k. unfold cleanup_expired_on_delete.
  rewrite lookup_delete_rows_id. case_decide as Hin.
  - symmetry. apply lookup_unexpired_None. intros r Hl.
    apply elem_of_keys_where in Hin as (r' & Hl' & HP). congruence.
  - destruct (st !! k) as [r|] eqn:Hl.
    + symmetry. apply lookup_unexpired_Some. split; [done|].
      destruct (expired now r) eqn:HP; [|done].
      exfalso. apply Hin, elem_of_keys_where. eauto.
    + symmetry. apply lookup_unexpired_None. intros r. congruence.
Qed.

(** On a table without expired rows the trigger does nothing. *)
Lemma delete_rows_cleanup_clean now ks (st : Store) :
  Spec.unexpired now st = st →
  (delete_rows (cleanup_expired_on_delete now) ks st).2 = (delete_rows id ks st).2.
Proof.
  revert st. induction ks as [|k ks IH]; intros st Hclean; [done|].
  rewrite !delete_rows_snd_cons. destruct (st !! k) as [old|]; [|by apply IH].
  rewrite cleanup_expired_on_delete_unexpired, Hclean. apply IH.
  rewrite unexpired_delete. by f_equal.
Qed.

(** Once the trigger has run for a first row, the expired rows are gone
    and the loop removes the selected ones. *)
Lemma delete_rows_cleanup now k ks (st : Store) :
  is_Some (st !! k) →
  (delete_rows (cleanup_expired_on_delete now) (k :: ks) st).2
  = (delete_rows id (k :: ks) (Spec.unexpired now st)).2.
Proof.
  intros [old Hl]. rewrite delete_rows_snd_cons, Hl.
  rewrite cleanup_expired_on_delete_unexpired.
  rewrite delete_rows_cleanup_clean
    by (by rewrite unexpired_delete, unexpired_idemp).
  rewrite delete_rows_snd_cons.
  destruct (Spec.unexpired now st !! k) as [r|] eqn:E; [done|].
  by rewrite (delete_id _ _ E).
Qed.

(** What a DELETE leaves: nothing changes when no row is selected;
    otherwise the selected rows and the expired rows are gone. *)
Lemma delete_where_no_rows now P (st : Store) :
  keys_where P st = [] → delete_where now P st = ([], st).
Proof. unfold delete_where. by intros ->. Qed.

Lemma lookup_delete_where_Some now P (st : Store) k r :
  keys_where P st ≠ [] →
  (delete_where now P st).2 !! k = Some r
  ↔ st !! k = Some r ∧ expired now r = false ∧ P k r = false.
Proof.
  intros Hne. unfold delete_where.
  destruct (keys_where P st) as [|k0 ks] eqn:E; [done|].
  rewrite delete_rows_cleanup.
  2:{ assert (k0 ∈ keys_where P st) as Hin by (rewrite E; left).
      apply elem_of_keys_where in Hin as (r0 & Hl & _). by exists r0. }
  rewrite <- E. rewrite lookup_delete_rows_id. case_decide as Hin.
  - apply elem_of_keys_where in Hin as (r' & Hl & HP). split; [done|].
    intros (Hl' & _ & HP'). congruence.
  - rewrite lookup_unexpired_Some. split.
    + intros [Hl He]. split_and!; [done..|].
      destruct (P k r) eqn:HP; [|done].
      exfalso. apply Hin, elem_of_keys_where. eauto.
    + tauto.
Qed.

Lemma cleanup_expired_on_insert_unexpired now (st : Store) :
  cleanup_expired_on_insert now st = Spec.unexpired now st.
Proof.
  unfold cleanup_expired_on_insert.
  destruct (keys_where (λ _ r, expired now r) st) as [|k0 ks] eqn:E.
  - rewrite delete_where_no_rows by done. simpl.
    apply map_eq. intros k. apply option_eq. intros r.
    rewrite lookup_unexpired_Some. split; [|tauto].
    intros Hl. split; [done|]. by eapply keys_where_nil in E.
  - apply map_eq. intros k. apply option_eq. intros r.
    rewrite lookup_delete_where_Some by (rewrite E; done).
    rewrite lookup_unexpired_Some. tauto.
Qed.

End SqlFacts.

(** * Facts about the prepared statements *)
Module StatementFacts.
Import Sql SqlFacts statements.

Lemma list_at_most_one (l : list string) a :
  NoDup l → (∀ x, x ∈ l → x = a) → l = [] ∨ l = [a].
Proof.
  intros Hnd Hall. destruct l as [|x l]; [by left|right].
  assert (x = a) as -> by (apply Hall; left).
  destruct l as [|y l]; [done|].
  assert (y = a) as -> by (apply Hall; right; left).
  apply NoDup_cons in Hnd as [Hnin _]. exfalso. apply Hnin. left.
Qed.

(** A WHERE clause that fixes the key selects at most that row. *)
Lemma keys_where_key Q (st : Store) key :
  keys_where (λ k r, bool_decide (k = key) && Q r) st
  = match st !! key with
    | Some r => if Q r then [key] else []
    | None => []
    end.
Proof.
  set (P := λ k r, bool_decide (k = key) && Q r).
  assert (∀ x, x ∈ keys_where P st → x = key) as Hall.
  { intros x Hin. apply elem_of_keys_where in Hin as (r & _ & HP).
    unfold P in HP. apply andb_true_iff in HP as [HP _].
    by apply bool_decide_eq_true in HP. }
  assert (key ∈ keys_where P st ↔ ∃ r, st !! key = Some r ∧ Q r = true) as Hkey.
  { rewrite elem_of_keys_where. unfold P.
    by setoid_rewrite bool_decide_eq_true_2. }
  destruct (list_at_most_one _ key (NoDup_keys_where P st) Hall) as [E|E];
    rewrite E in Hkey |- *.
  - destruct (st !! key) as [r|]; [|done].
    destruct (Q r) eqn:HQ; [|done].
    exfalso. eapply not_elem_of_nil, Hkey. eauto.
  - destruct Hkey as [(r & -> & ->) _]; [left|done].
Qed.

Lemma deleteSelect_live now key (st : Store) r :
  st !! key = Some r → live now r = true →
  deleteSelect now key st = (Some r, delete key (Spec.unexpired now st)).
Proof.
  intros Hl Hlive. unfold deleteSelect, delete_where.
  rewrite keys_where_key, Hl, Hlive. simpl. rewrite Hl.
  rewrite cleanup_expired_on_delete_unexpired.
  assert (Spec.unexpired now st !! key = Some r) as Hu.
  { apply lookup_unexpired_Some. split; [done|].
    rewrite live_not_expired in Hlive. by destruct (expired now r). }
  rewrite decide_True by (by rewrite Hu). done.
Qed.

Lemma deleteSelect_not_live now key (st : Store) :
  (∀ r, st !! key = Some r → live now r = false) →
  deleteSelect now key st = (None, st).
Proof.
  intros Hno. unfold deleteSelect, delete_where. rewrite keys_where_key.
  destruct (st !! key) as [r|]; [|done]. by rewrite (Hno r eq_refl).
Qed.

Lemma select_live now key (st : Store) r :
  st !! key = Some r → live now r = true → select now key st = Some r.
Proof. intros Hl Hlive. unfold select. by rewrite Hl, Hlive. Qed.

Lemma select_not_live now key (st : Store) :
  (∀ r, st !! key = Some r → live now r = false) → select now key st = None.
Proof.
  intros Hno. unfold select. destruct (st !! key) as [r|]; [|done].
  by rewrite (Hno r eq_refl).
Qed.

Lemma insert_spec now k json exp (st : Store) :
  Sql.insert now k json exp st
  = match select now k st with
    | Some _ => None
    | None => Some (<[k := new_row now json exp]> (Spec.unexpired now st))
    end.
Proof.
  unfold Sql.insert, select. rewrite cleanup_expired_on_insert_unexpired.
  destruct (st !! k) as [r|] eqn:Hl.
  - rewrite live_not_expired. destruct (expired now r) eqn:He; simpl.
    + assert (Spec.unexpired now st !! k = None) as ->; [|done].
      apply lookup_unexpired_None. congruence.
    + assert (Spec.unexpired now st !! k = Some r) as ->; [|done].
      by apply lookup_unexpired_Some.
  - assert (Spec.unexpired now st !! k = None) as ->; [|done].
    apply lookup_unexpired_None. congruence.
Qed.

Lemma replace_spec now k json exp (st : Store) :
  Sql.replace now k json exp st = <[k := new_row now json exp]> (Spec.unexpired now st).
Proof.
  unfold Sql.replace. by rewrite cleanup_expired_on_insert_unexpired, insert_delete_eq.
Qed.

Lemma addToCounter_live now key delta (st : Store) r :
  st !! key = Some r → live now r = true →
  addToCounter now key delta st
  = (Some (Row.set_counter (sql_add (Row.counter r) delta) r),
     <[key := Row.set_updated_at now (Row.set_counter (sql_add (Row.counter r) delta) r)]> st).
Proof.
  intros Hl Hlive. unfold addToCounter, update_counter. rewrite Hl, Hlive.
  unfold update_updated_at_on_update. by rewrite alter_insert_eq.
Qed.

Lemma addToCounter_not_live now key delta (st : Store) :
  (∀ r, st !! key = Some r → live now r = false) →
  addToCounter now key delta st = (None, st).
Proof.
  intros Hno. unfold addToCounter, update_counter.
  destruct (st !! key) as [r|]; [|done]. by rewrite (Hno r eq_refl).
Qed.

End StatementFacts.

(** * The methods of the class *)
Module KVFacts.
Import Sql SqlFacts statements StatementFacts.

Lemma select_Some now key (st : Store) r :
  select now key st = Some r ↔ st !! key = Some r ∧ Spec.is_live now r.
Proof.
  unfold select. rewrite <- live_is_live. destruct (st !! key) as [r'|].
  - destruct (live now r') eqn:E; split.
    + by intros [= <-].
    + by intros [[= <-] _].
    + done.
    + intros [[= <-] ?]. congruence.
  - split; [done|]. by intros [? _].
Qed.

Lemma select_None now key (st : Store) :
  select now key st = None ↔ ¬ Spec.has_live now key st.
Proof.
  unfold Spec.has_live. split.
  - intros Hn (r & Hr). apply select_Some in Hr. congruence.
  - intros Hn. destruct (select now key st) as [r|] eqn:E; [|done].
    exfalso. apply Hn. exists r. by apply select_Some.
Qed.

Lemma not_has_live now key (st : Store) :
  ¬ Spec.has_live now key st ↔ ∀ r, st !! key = Some r → live now r = false.
Proof.
  unfold Spec.has_live. split.
  - intros Hn r Hl. destruct (live now r) eqn:E; [|done].
    exfalso. apply Hn. exists r. split; [done|]. by apply live_is_live.
  - intros Hall (r & Hl & Hlive). apply live_is_live in Hlive.
    rewrite (Hall r Hl) in Hlive. done.
Qed.

Lemma expired_not_has_live now key (st : Store) r :
  st !! key = Some r → Spec.is_expired now r → ¬ Spec.has_live now key st.
Proof.
  intros Hl He. apply not_has_live. intros r' Hl'.
  assert (r' = r) as -> by congruence. by apply not_live_is_expired.
Qed.

Section WithJSON.

Context {Json : Type}.
Variable JSON_stringify : Json → string.
Variable JSON_parse : string → outcome (option Json).

Lemma format_Some_not_null r : KV.format JSON_parse (Some r) ≠ Return None.
Proof.
  unfold KV.format. destruct (Row.json_data r) as [s|]; [|done].
  by destruct (JSON_parse s).
Qed.

(** C1.  [get(k)] returns an entry exactly when the table holds a row
    for [k] that is live (its [expires_at] is NULL or greater than the
    current time), and the entry is then the one [format] makes of that
    row; it returns [null] exactly when there is no live row for [k].
    In particular a stored row that has expired is not returned,
    whether or not anything has removed it. *)
Theorem get_returns_live_entry (now : Z) (key : string) (st : Store) :
  (∀ e, KV.get JSON_parse now key st = Return (Some e)
        ↔ ∃ r, st !! key = Some r ∧ Spec.is_live now r
               ∧ KV.format JSON_parse (Some r) = Return (Some e))
  ∧ (KV.get JSON_parse now key st = Return None ↔ ¬ Spec.has_live now key st)
  ∧ (∀ r, st !! key = Some r → Spec.is_expired now r →
       KV.get JSON_parse now key st = Return None).
Proof.
  assert (KV.get JSON_parse now key st = Return None
          ↔ ¬ Spec.has_live now key st) as Hnull.
  { unfold KV.get. rewrite <- select_None.
    destruct (select now key st) as [r|] eqn:E; [|done].
    split; [|done]. intros Hf. by apply format_Some_not_null in Hf. }
  split_and!; [|exact Hnull|].
  - intros e. unfold KV.get. split.
    + destruct (select now key st) as [r|] eqn:E; [|done].
      apply select_Some in E as [Hl Hlive]. eauto.
    + intros (r & Hl & Hlive & Hf).
      by rewrite (proj2 (select_Some now key st r) (conj Hl Hlive)).
  - intros r Hl He. apply Hnull. by eapply expired_not_has_live.
Qed.

End WithJSON.

(** The test "doesn't return expired values": [b] is stored and
    expired, [a] is stored and live. *)
Lemma get_returns_live_entry_witness :
  Samples.abc !! "b" = Some (Row.mkResult (Some "test-value") (Int 1) (Some 50) 10 10)
  ∧ KV.get Booleans.parse 60 "b" Samples.abc = Return None
  ∧ KV.get Booleans.parse 60 "a" Samples.abc
    = Return (Some (KV.mkEntry (Some true) (Int 0) None 10000 10000)).
Proof.
  split; [reflexivity|]. split.
  - apply (get_returns_live_entry Booleans.parse 60 "b" Samples.abc) with
      (r := Row.mkResult (Some "test-value") (Int 1) (Some 50) 10 10).
    + reflexivity.
    + exists 50. split; [reflexivity|simpl; lia].
  - apply (get_returns_live_entry Booleans.parse 60 "a" Samples.abc).
    exists (Row.mkResult (Some "true") (Int 0) None 10 10).
    split; [reflexivity|]. split; [by left|reflexivity].
Defined.

Lemma is_expired_mono now now' r :
  now ≤ now' → Spec.is_expired now r → Spec.is_expired now' r.
Proof.
  intros Hle (e & He & Hen). exists e. split; [done|].
  by eapply at_or_before_mono.
Qed.

Lemma has_live_dec now key (st : Store) :
  Spec.has_live now key st ∨ ¬ Spec.has_live now key st.
Proof.
  destruct (select now key st) as [r|] eqn:E.
  - left. exists r. by apply select_Some.
  - right. by apply select_None.
Qed.

Lemma set_catch_conflict :
  KV.set_catch (SQLiteError SQLITE_CONSTRAINT_PRIMARYKEY) = Return false.
Proof. reflexivity. Qed.

Lemma set_catch_other e :
  e ≠ SQLiteError SQLITE_CONSTRAINT_PRIMARYKEY → KV.set_catch e = Throw e.
Proof.
  intros Hne. destruct e as [code| |msg]; [|done..]. unfold KV.set_catch.
  case_bool_decide; [congruence|done].
Qed.

Section SetFacts.

Context {Json : Type}.
Variable JSON_stringify : Json → string.
Variable JSON_parse : string → outcome (option Json).

(** What [set] does when the engine runs its statement. *)
Lemma set_runs Date_now now key data opts (st : Store) :
  KV.set JSON_stringify Date_now None now key data opts st
  = let row := new_row now (KV.set_jsonData JSON_stringify data)
                 (KV.set_expiresAt Date_now opts) in
    if KV.truthy (KV.opt_replace opts)
    then (Return true, <[key := row]> (Spec.unexpired now st))
    else match select now key st with
         | Some _ => (Return false, st)
         | None => (Return true, <[key := row]> (Spec.unexpired now st))
         end.
Proof.
  unfold KV.set, insertReplace, insertIgnore. simpl.
  destruct (KV.truthy (KV.opt_replace opts)).
  - by rewrite replace_spec.
  - rewrite insert_spec. by destruct (select now key st).
Qed.

(** C2.  Without the replace option and with the engine running the
    statement, [set(k, v)] returns [false] exactly when the table holds
    a live row for [k], and the table is then unchanged; otherwise it
    returns [true] and the table is the old one without its expired
    rows and with the new row for [k], so a row for [k] that has
    expired does not count as a conflict.  A failure of the engine
    other than the primary-key conflict is thrown on as it is. *)
Theorem set_without_replace Date_now now key data opts (st : Store) :
  KV.truthy (KV.opt_replace opts) = false →
  let call fault := KV.set JSON_stringify Date_now fault now key data opts st in
  ((call None).1 = Return false ↔ Spec.has_live now key st)
  ∧ (Spec.has_live now key st → call None = (Return false, st))
  ∧ (¬ Spec.has_live now key st →
       call None
       = (Return true,
          <[key := new_row now (KV.set_jsonData JSON_stringify data)
                     (KV.set_expiresAt Date_now opts)]> (Spec.unexpired now st)))
  ∧ (∀ r, st !! key = Some r → Spec.is_expired now r → (call None).1 = Return true)
  ∧ (∀ e, e ≠ SQLiteError SQLITE_CONSTRAINT_PRIMARYKEY →
       call (Some e) = (Throw e, st)).
Proof.
  intros Hrep call.
  assert (Spec.has_live now key st → call None = (Return false, st)) as Hlive.
  { intros (r & Hr). apply select_Some in Hr. unfold call.
    by rewrite set_runs, Hrep, Hr. }
  assert (¬ Spec.has_live now key st →
          call None
          = (Return true,
             <[key := new_row now (KV.set_jsonData JSON_stringify data)
                        (KV.set_expiresAt Date_now opts)]> (Spec.unexpired now st)))
    as Hdead.
  { intros Hn. apply select_None in Hn. unfold call.
    by rewrite set_runs, Hrep, Hn. }
  split_and!; [|exact Hlive|exact Hdead| |].
  - split.
    + intros Hf. destruct (has_live_dec now key st) as [H|H]; [done|].
      rewrite (Hdead H) in Hf. done.
    + intros H. by rewrite (Hlive H).
  - intros r Hl He. rewrite Hdead; [done|]. by eapply expired_not_has_live.
  - intros e Hne. unfold call, KV.set, insertIgnore. rewrite Hrep.
    by rewrite set_catch_other.
Qed.

End SetFacts.

(** The tests "ignores on conflict" and "deletes expired value before
    setting", and an engine that reports a busy database. *)
Lemma set_without_replace_witness :
  KV.truthy (KV.opt_replace KV.no_opts) = false
  ∧ KV.set Booleans.stringify 60000 None 60 "a" (Some false) KV.no_opts Samples.abc
    = (Return false, Samples.abc)
  ∧ (KV.set Booleans.stringify 60000 None 60 "b" (Some false) KV.no_opts Samples.abc).1
    = Return true
  ∧ KV.set Booleans.stringify 60000 (Some (SQLiteError "SQLITE_BUSY")) 60 "a"
      (Some false) KV.no_opts Samples.abc
    = (Throw (SQLiteError "SQLITE_BUSY"), Samples.abc).
Proof.
  split; [reflexivity|]. split_and!.
  - apply (set_without_replace Booleans.stringify 60000 60 "a" (Some false)
             KV.no_opts Samples.abc eq_refl).
    exists (Row.mkResult (Some "true") (Int 0) None 10 10).
    split; [reflexivity|by left].
  - apply (set_without_replace Booleans.stringify 60000 60 "b" (Some false)
             KV.no_opts Samples.abc eq_refl)
      with (r := Row.mkResult (Some "test-value") (Int 1) (Some 50) 10 10).
    + reflexivity.
    + exists 50. split; [reflexivity|simpl; lia].
  - apply (set_without_replace Booleans.stringify 60000 60 "a" (Some false)
             KV.no_opts Samples.abc eq_refl).
    discriminate.
Defined.

Section GetDel.

Context {Json : Type}.
Variable JSON_parse : string → outcome (option Json).

Lemma getDel_live now key (st : Store) r :
  st !! key = Some r → Spec.is_live now r →
  KV.getDel JSON_parse now key st
  = (KV.format JSON_parse (Some r), delete key (Spec.unexpired now st)).
Proof.
  intros Hl Hlive. apply live_is_live in Hlive. unfold KV.getDel.
  by rewrite (deleteSelect_live _ _ _ _ Hl Hlive).
Qed.

Lemma getDel_not_live now key (st : Store) :
  ¬ Spec.has_live now key st → KV.getDel JSON_parse now key st = (Return None, st).
Proof.
  intros Hn. unfold KV.getDel.
  by rewrite deleteSelect_not_live by (by apply not_has_live).
Qed.

Lemma get_not_live now key (st : Store) :
  ¬ Spec.has_live now key st → KV.get JSON_parse now key st = Return None.
Proof. intros Hn. unfold KV.get. by rewrite (proj2 (select_None _ _ _) Hn). Qed.

Lemma not_has_live_later now now' key (st : Store) :
  now ≤ now' → ¬ Spec.has_live now key st → ¬ Spec.has_live now' key st.
Proof.
  intros Hle Hn. apply not_has_live. intros r Hl.
  apply not_live_is_expired, (is_expired_mono now); [done|].
  apply not_live_is_expired. by eapply not_has_live.
Qed.

(** C3.  [getDel(k)] on a live row returns what [format] makes of the
    row as it was and removes it; without a live row for [k] it
    returns [null] and leaves the table as it is.  Either way there is
    no live row for [k] afterwards, so a [getDel(k)] or [get(k)] that
    follows (the clock not running backwards) returns [null]. *)
Theorem getDel_once now now' key (st : Store) :
  now ≤ now' →
  let res := KV.getDel JSON_parse now key st in
  (∀ r, st !! key = Some r → Spec.is_live now r →
     res = (KV.format JSON_parse (Some r), delete key (Spec.unexpired now st)))
  ∧ (¬ Spec.has_live now key st → res = (Return None, st))
  ∧ (Spec.has_live now key st → res.2 !! key = None)
  ∧ KV.getDel JSON_parse now' key res.2 = (Return None, res.2)
  ∧ KV.get JSON_parse now' key res.2 = Return None.
Proof.
  intros Hle res.
  assert (¬ Spec.has_live now' key res.2) as Hafter.
  { destruct (has_live_dec now key st) as [(r & Hl & Hlive)|Hn].
    - unfold res. rewrite (getDel_live _ _ _ _ Hl Hlive). simpl.
      intros (r' & Hl' & _). by rewrite lookup_delete_eq in Hl'.
    - unfold res. rewrite (getDel_not_live _ _ _ Hn). simpl.
      by eapply not_has_live_later. }
  split_and!.
  - intros r. apply getDel_live.
  - apply getDel_not_live.
  - intros (r & Hl & Hlive). unfold res. rewrite (getDel_live _ _ _ _ Hl Hlive).
    apply lookup_delete_eq.
  - by apply getDel_not_live.
  - by apply get_not_live.
Qed.

End GetDel.

(** The test "gets and deletes". *)
Lemma getDel_once_witness :
  60 ≤ 60
  ∧ (KV.getDel Booleans.parse 60 "a" Samples.abc).1
    = Return (Some (KV.mkEntry (Some true) (Int 0) None 10000 10000))
  ∧ (KV.getDel Booleans.parse 60 "a" (KV.getDel Booleans.parse 60 "a" Samples.abc).2).1
    = Return None
  ∧ KV.get Booleans.parse 60 "a" (KV.getDel Booleans.parse 60 "a" Samples.abc).2
    = Return None.
Proof.
  pose proof (getDel_once Booleans.parse 60 60 "a" Samples.abc ltac:(lia)) as H.
  simpl in H. destruct H as (H1 & _ & _ & H4 & H5).
  split; [lia|]. split_and!.
  - rewrite (H1 (Row.mkResult (Some "true") (Int 0) None 10 10) eq_refl);
      [reflexivity|by left].
  - by rewrite H4.
  - exact H5.
Defined.

Lemma sql_add_exact c d :
  INT64_MIN ≤ c + d ≤ INT64_MAX → sql_add (Int c) d = Int (c + d).
Proof.
  intros [H1 H2]. unfold sql_add, fits_int64.
  apply Z.leb_le in H1, H2. by rewrite H1, H2.
Qed.

Lemma js_number_exact c : Z.abs c ≤ 2 ^ 53 → js_number (Int c) = Int c.
Proof. intros H. unfold js_number. apply Z.leb_le in H. by rewrite H. Qed.

Lemma is_live_expires_at now r r' :
  Row.expires_at r' = Row.expires_at r → Spec.is_live now r → Spec.is_live now r'.
Proof. unfold Spec.is_live. by intros ->. Qed.

Section Counter.

Context {Json : Type}.
Variable JSON_stringify : Json → string.
Variable JSON_parse : string → outcome (option Json).

Lemma format_counter r e :
  KV.format JSON_parse (Some r) = Return (Some e)
  → KV.counter e = js_number (Row.counter r).
Proof.
  unfold KV.format. destruct (Row.json_data r) as [s|].
  - destruct (JSON_parse s); [|done]. by intros [= <-].
  - by intros [= <-].
Qed.

Lemma get_not_expired_row now key (st : Store) r :
  st !! key = Some r → Spec.is_live now r →
  KV.get JSON_parse now key st = KV.format JSON_parse (Some r).
Proof.
  intros Hl Hlive. unfold KV.get.
  by rewrite (proj2 (select_Some _ _ _ _) (conj Hl Hlive)).
Qed.

Lemma KV_addToCounter_live now key delta (st : Store) r :
  st !! key = Some r → Spec.is_live now r →
  KV.addToCounter JSON_parse now key delta st
  = (KV.format JSON_parse
       (Some (Row.set_counter (sql_add (Row.counter r) delta) r)),
     <[key := Row.set_updated_at now
                (Row.set_counter (sql_add (Row.counter r) delta) r)]> st).
Proof.
  intros Hl Hlive. apply live_is_live in Hlive. unfold KV.addToCounter.
  by rewrite (addToCounter_live _ _ _ _ _ Hl Hlive).
Qed.

Lemma KV_addToCounter_not_live now key delta (st : Store) :
  ¬ Spec.has_live now key st →
  KV.addToCounter JSON_parse now key delta st = (Return None, st).
Proof.
  intros Hn. unfold KV.addToCounter.
  by rewrite addToCounter_not_live by (by apply not_has_live).
Qed.

Lemma count_cons (P : Trace.call Json → bool) tc calls :
  Trace.count P (tc :: calls)
  = (if P tc.2 then 1 else 0) + Trace.count P calls.
Proof.
  unfold Trace.count. rewrite filter_cons.
  destruct (P tc.2) eqn:E.
  - rewrite decide_True by done. simpl length. lia.
  - rewrite decide_False by done. lia.
Qed.

(** Increments and decrements of one key in any order: the counter
    moves by their difference, as long as it stays a 64-bit integer. *)
Lemma run_counter key calls : ∀ (st : Store) r c,
  st !! key = Some r → Row.counter r = Int c →
  (∀ t o, (t, o) ∈ calls →
     (o = Trace.call_increment key ∨ o = Trace.call_decrement key)
     ∧ Spec.is_live t r) →
  INT64_MIN ≤ c - Z.of_nat (length calls) →
  c + Z.of_nat (length calls) ≤ INT64_MAX →
  ∃ r', Trace.run JSON_stringify JSON_parse calls st !! key = Some r'
        ∧ Row.counter r'
          = Int (c + Trace.count (Trace.is_increment key) calls
                   - Trace.count (Trace.is_decrement key) calls).
Proof.
  induction calls as [|[t o] calls IH]; intros st r c Hl Hc Hall Hlo Hhi.
  - exists r. split; [done|]. rewrite Hc. f_equal. unfold Trace.count. simpl. lia.
  - simpl length in Hlo, Hhi.
    destruct (Hall t o ltac:(left)) as [Ho Hlive].
    assert (∃ d, (d = 1 ∨ d = -1)
                 ∧ Trace.step JSON_stringify JSON_parse t o st
                   = <[key := Row.set_updated_at t (Row.set_counter (Int (c + d)) r)]> st
                 ∧ (if Trace.is_increment key o then 1 else 0)
                   - (if Trace.is_decrement key o then 1 else 0) = d)
      as (d & Hd & Hstep & Hcount).
    { destruct Ho as [-> | ->]; [exists 1|exists (-1)]; (split; [auto|]);
        simpl; unfold KV.increment, KV.decrement;
        rewrite (KV_addToCounter_live _ _ _ _ _ Hl Hlive), Hc;
        rewrite sql_add_exact by lia; simpl;
        rewrite bool_decide_eq_true_2 by done; done. }
    edestruct (IH (Trace.step JSON_stringify JSON_parse t o st)
                 (Row.set_updated_at t (Row.set_counter (Int (c + d)) r)) (c + d))
      as (r' & Hl' & Hc').
    + rewrite Hstep. apply lookup_insert_eq.
    + done.
    + intros t' o' Hin. destruct (Hall t' o' ltac:(by right)) as [? ?].
      split; [done|]. by eapply is_live_expires_at.
    + lia.
    + lia.
    + exists r'. split; [exact Hl'|]. rewrite Hc'. f_equal.
      rewrite !(count_cons _ (t, o)). simpl. lia.
Qed.

(** X1.  On a live row [increment(k)] and [decrement(k)] add 1 and -1
    to its counter and return what [format] makes of the row the
    UPDATE wrote; the table then holds that row with [updated_at] set
    to the time of the call.  Without a live row they return [null]
    and leave the table as it is.  While the values stay 64-bit
    integers the addition is exact, so [n] increments and [m]
    decrements of a row that starts at 0, in any order, leave the
    counter at [n - m]; [format] hands it on exactly up to 2^53. *)
Theorem increment_decrement_exact now key (st : Store) :
  (∀ r, st !! key = Some r → Spec.is_live now r →
     let up d := Row.set_counter (sql_add (Row.counter r) d) r in
     KV.increment JSON_parse now key st
     = (KV.format JSON_parse (Some (up 1)), <[key := Row.set_updated_at now (up 1)]> st)
     ∧ KV.decrement JSON_parse now key st
       = (KV.format JSON_parse (Some (up (-1))),
          <[key := Row.set_updated_at now (up (-1))]> st))
  ∧ (¬ Spec.has_live now key st →
       KV.increment JSON_parse now key st = (Return None, st)
       ∧ KV.decrement JSON_parse now key st = (Return None, st))
  ∧ (∀ c d, INT64_MIN ≤ c + d ≤ INT64_MAX → sql_add (Int c) d = Int (c + d))
  ∧ (∀ r e c, KV.format JSON_parse (Some r) = Return (Some e) →
       Row.counter r = Int c → Z.abs c ≤ 2 ^ 53 → KV.counter e = Int c)
  ∧ (∀ r calls, st !! key = Some r → Row.counter r = Int 0 →
       (∀ t o, (t, o) ∈ calls →
          (o = Trace.call_increment key ∨ o = Trace.call_decrement key)
          ∧ Spec.is_live t r) →
       Z.of_nat (length calls) ≤ INT64_MAX →
       let n := Trace.count (Trace.is_increment key) calls in
       let m := Trace.count (Trace.is_decrement key) calls in
       ∃ r', Trace.run JSON_stringify JSON_parse calls st !! key = Some r'
             ∧ Row.counter r' = Int (n - m)).
Proof.
  split_and!.
  - intros r Hl Hlive up. unfold KV.increment, KV.decrement.
    by rewrite !(KV_addToCounter_live _ _ _ _ _ Hl Hlive).
  - intros Hn. unfold KV.increment, KV.decrement.
    by rewrite !KV_addToCounter_not_live.
  - apply sql_add_exact.
  - intros r e c Hf Hc Hle. rewrite (format_counter _ _ Hf), Hc.
    by apply js_number_exact.
  - intros r calls Hl Hc Hall Hlen n m.
    destruct (run_counter key calls st r 0 Hl Hc Hall) as (r' & Hl' & Hc').
    + unfold INT64_MIN, INT64_MAX in *. lia.
    + lia.
    + exists r'. split; [done|]. rewrite Hc'. f_equal.
Qed.

(** What [increment] returns and what a [get] at the same time returns
    next differ in [updatedAt] only: the first is the time of the last
    update before the call, the second the time of the call. *)
Lemma increment_then_get now key (st : Store) r e :
  st !! key = Some r → Spec.is_live now r →
  (KV.increment JSON_parse now key st).1 = Return (Some e) →
  KV.updatedAt e = Row.updated_at r * 1000
  ∧ KV.get JSON_parse now key (KV.increment JSON_parse now key st).2
    = Return (Some (KV.mkEntry (KV.data e) (KV.counter e) (KV.expiresAt e)
                      (KV.createdAt e) (now * 1000))).
Proof.
  intros Hl Hlive. unfold KV.increment.
  rewrite (KV_addToCounter_live _ _ _ _ _ Hl Hlive). simpl. intros Hf.
  rewrite (get_not_expired_row now key _
             (Row.set_updated_at now (Row.set_counter (sql_add (Row.counter r) 1) r)));
    [|apply lookup_insert_eq|by eapply is_live_expires_at].
  revert Hf. unfold KV.format. simpl.
  destruct (Row.json_data r) as [s0|]; [destruct (JSON_parse s0)|];
    intros [= <-]; done.
Qed.

(** C9.  On a live row [increment(k)] and [decrement(k)] write the
    columns [counter] and [updated_at] of that row and nothing else:
    its [json_data], [expires_at] and [created_at] stay, and so does
    every row of another key, expired rows included. *)
Theorem counter_update_frame now key (st : Store) r :
  st !! key = Some r → Spec.is_live now r →
  let inc := (KV.increment JSON_parse now key st).2 in
  let dec := (KV.decrement JSON_parse now key st).2 in
  inc !! key
  = Some (Row.mkResult (Row.json_data r) (sql_add (Row.counter r) 1)
            (Row.expires_at r) (Row.created_at r) now)
  ∧ dec !! key
    = Some (Row.mkResult (Row.json_data r) (sql_add (Row.counter r) (-1))
              (Row.expires_at r) (Row.created_at r) now)
  ∧ (∀ k, k ≠ key → inc !! k = st !! k ∧ dec !! k = st !! k).
Proof.
  intros Hl Hlive inc dec. unfold inc, dec, KV.increment, KV.decrement.
  rewrite !(KV_addToCounter_live _ _ _ _ _ Hl Hlive). simpl.
  split_and!.
  - apply lookup_insert_eq.
  - apply lookup_insert_eq.
  - intros k Hne. by rewrite !lookup_insert_ne.
Qed.

End Counter.

(** The test "increments and decrements counter" on the row [a], and
    "returns null if counter doesn't exist or is expired" on [b]. *)
Lemma increment_decrement_exact_witness :
  (KV.increment Booleans.parse 60 "a" Samples.abc).1
  = Return (Some (KV.mkEntry (Some true) (Int 1) None 10000 10000))
  ∧ KV.decrement Booleans.parse 60 "b" Samples.abc = (Return None, Samples.abc)
  ∧ ∃ r', Trace.run Booleans.stringify Booleans.parse
            [(60, Trace.call_increment "a"); (61, Trace.call_decrement "a");
             (61, Trace.call_increment "a"); (70, Trace.call_increment "a")]
            Samples.abc !! "a" = Some r'
          ∧ Row.counter r' = Int (3 - 1).
Proof.
  pose proof (increment_decrement_exact Booleans.stringify Booleans.parse
                60 "a" Samples.abc) as (Ha & _ & _ & _ & Hrun).
  pose proof (increment_decrement_exact Booleans.stringify Booleans.parse
                60 "b" Samples.abc) as (_ & Hb & _).
  split_and!.
  - destruct (Ha (Row.mkResult (Some "true") (Int 0) None 10 10) eq_refl) as [-> _];
      [by left|reflexivity].
  - apply Hb. intros (r & Hl & Hlive).
    change (Some (Row.mkResult (Some "test-value") (Int 1) (Some 50) 10 10) = Some r)
      in Hl.
    injection Hl as <-.
    destruct Hlive as [Hnone|(e & He & Hlt)]; simpl in *; [done|].
    injection He as <-. simpl in Hlt. lia.
  - apply (Hrun (Row.mkResult (Some "true") (Int 0) None 10 10)); [reflexivity..| |].
    + intros t o Hin. split; [|by left].
      repeat (apply elem_of_cons in Hin as [[= -> ->]|Hin]; [auto|]).
      by apply elem_of_nil in Hin.
    + vm_compute. discriminate.
Defined.

(** C4.  [set("a", true)] at time 10 on the empty table, then
    [increment("a")] at time 60: the call returns an entry with the new
    counter 1 and with [updatedAt] still 10 s, while the row it leaves
    in the table, and the entry a [get] at time 60 makes of it, has
    [updatedAt] 60 s.  The returned entry is not the row after the
    update. *)
Lemma increment_returns_stale_updatedAt :
  (KV.increment Booleans.parse 60 "a"
     (KV.set Booleans.stringify 10000 None 10 "a" (Some true) KV.no_opts ∅).2).1
  = Return (Some (KV.mkEntry (Some true) (Int 1) None 10000 10000))
  ∧ (KV.increment Booleans.parse 60 "a"
       (KV.set Booleans.stringify 10000 None 10 "a" (Some true) KV.no_opts ∅).2).2
      !! "a"
    = Some (Row.mkResult (Some "true") (Int 1) None 10 60)
  ∧ KV.get Booleans.parse 60 "a"
      (KV.increment Booleans.parse 60 "a"
         (KV.set Booleans.stringify 10000 None 10 "a" (Some true) KV.no_opts ∅).2).2
    = Return (Some (KV.mkEntry (Some true) (Int 1) None 10000 60000)).
Proof. split_and!; reflexivity. Qed.

(** The live row [c] is incremented; the expired row [b] stays. *)
Lemma counter_update_frame_witness :
  Samples.abc !! "c" = Some (Row.mkResult None (Int 7) (Some 1000) 20 30)
  ∧ Spec.is_live 60 (Row.mkResult None (Int 7) (Some 1000) 20 30)
  ∧ (KV.increment Booleans.parse 60 "c" Samples.abc).2 !! "c"
    = Some (Row.mkResult None (Int 8) (Some 1000) 20 60)
  ∧ (KV.increment Booleans.parse 60 "c" Samples.abc).2 !! "b" = Samples.abc !! "b".
Proof.
  assert (Spec.is_live 60 (Row.mkResult None (Int 7) (Some 1000) 20 30)) as Hlive.
  { right. exists 1000. split; [reflexivity|simpl; lia]. }
  pose proof (counter_update_frame Booleans.parse 60 "c" Samples.abc _ eq_refl Hlive)
    as (Hc & _ & Hother).
  split; [reflexivity|]. split; [exact Hlive|]. split.
  - exact Hc.
  - apply Hother. discriminate.
Defined.

Section SetGet.

Context {Json : Type}.
Variable JSON_stringify : Json → string.
Variable JSON_parse : string → outcome (option Json).

Lemma format_new_row now data :
  Spec.serializable JSON_stringify JSON_parse data →
  KV.format JSON_parse (Some (new_row now (KV.set_jsonData JSON_stringify data) None))
  = Return (Some (KV.mkEntry data (Int 0) None (now * 1000) (now * 1000))).
Proof.
  intros Hser. unfold KV.format, new_row. simpl.
  destruct data as [d|]; simpl in *; [|done]. by rewrite Hser.
Qed.

Lemma get_stored_live now key (st : Store) r :
  st !! key = Some r → Spec.is_live now r →
  KV.get JSON_parse now key st = KV.format JSON_parse (Some r).
Proof. apply get_not_expired_row. Qed.

(** [set] returns [true] only when the engine ran the statement. *)
Lemma set_true_runs Date_now fault now key data opts (st : Store) :
  (KV.set JSON_stringify Date_now fault now key data opts st).1 = Return true →
  fault = None.
Proof.
  destruct fault as [e|]; [|done]. unfold KV.set, insertReplace, insertIgnore.
  destruct (KV.truthy (KV.opt_replace opts)); simpl; [done|].
  destruct e as [code| |msg]; simpl; [|done..]. by case_bool_decide.
Qed.

(** The row [set] has written when it returns [true]. *)
Lemma set_true_row Date_now fault now key data opts (st : Store) :
  (KV.set JSON_stringify Date_now fault now key data opts st).1 = Return true →
  (KV.set JSON_stringify Date_now fault now key data opts st).2
  = <[key := new_row now (KV.set_jsonData JSON_stringify data)
               (KV.set_expiresAt Date_now opts)]> (Spec.unexpired now st).
Proof.
  intros Ht. pose proof (set_true_runs _ _ _ _ _ _ _ Ht) as ->.
  rewrite set_runs in Ht |- *. simpl in *.
  destruct (KV.truthy (KV.opt_replace opts)); [done|].
  by destruct (select now key st).
Qed.

(** C5.  With a truthy replace option and the engine running the
    statement, [set] returns [true] whatever the table holds, and the
    row of [k] is then the new one: the given payload, counter 0, the
    expiration of this call, both timestamps now.  With no expiration
    given, a later [get(k)] returns the value with counter 0 and no
    expiration. *)
Theorem set_replace_overwrites Date_now now key data opts (st : Store) :
  KV.truthy (KV.opt_replace opts) = true →
  let res := KV.set JSON_stringify Date_now None now key data opts st in
  let row := new_row now (KV.set_jsonData JSON_stringify data)
               (KV.set_expiresAt Date_now opts) in
  res = (Return true, <[key := row]> (Spec.unexpired now st))
  ∧ res.2 !! key = Some row
  ∧ (∀ now', Spec.is_live now' row →
       KV.get JSON_parse now' key res.2 = KV.format JSON_parse (Some row))
  ∧ (KV.opt_ttl opts = None → KV.opt_expiresAt opts = None →
     Spec.serializable JSON_stringify JSON_parse data →
     ∀ now', KV.get JSON_parse now' key res.2
             = Return (Some (KV.mkEntry data (Int 0) None (now * 1000) (now * 1000)))).
Proof.
  intros Hrep res row.
  assert (res = (Return true, <[key := row]> (Spec.unexpired now st))) as Hres.
  { unfold res. by rewrite set_runs, Hrep. }
  assert (res.2 !! key = Some row) as Hrow.
  { rewrite Hres. apply lookup_insert_eq. }
  split_and!; [done|done| |].
  - intros now' Hlive. by apply get_stored_live.
  - intros Httl Hexp Hser now'.
    assert (row = new_row now (KV.set_jsonData JSON_stringify data) None) as Hnone.
    { unfold row, KV.set_expiresAt. by rewrite Httl, Hexp. }
    rewrite (get_stored_live now' key res.2 row Hrow).
    + rewrite Hnone. by apply format_new_row.
    + rewrite Hnone. by left.
Qed.

(** C6.  When [k] has no live row, [set(k, v)] with no options returns
    [true], and a [get(k)] after it, at any time, returns an entry with
    the value [v] (a value that JSON reads back), counter 0, no
    expiration, and equal creation and update times. *)
Theorem set_get_roundtrip Date_now now key data (st : Store) :
  ¬ Spec.has_live now key st →
  Spec.serializable JSON_stringify JSON_parse data →
  let res := KV.set JSON_stringify Date_now None now key data KV.no_opts st in
  res.1 = Return true
  ∧ ∀ now', ∃ e, KV.get JSON_parse now' key res.2 = Return (Some e)
                 ∧ KV.data e = data ∧ KV.counter e = Int 0
                 ∧ KV.expiresAt e = None
                 ∧ KV.createdAt e = now * 1000
                 ∧ KV.updatedAt e = KV.createdAt e.
Proof.
  intros Hn Hser res.
  assert (res = (Return true,
                 <[key := new_row now (KV.set_jsonData JSON_stringify data) None]>
                   (Spec.unexpired now st))) as Hres.
  { unfold res. rewrite set_runs. simpl.
    by rewrite (proj2 (select_None _ _ _) Hn). }
  split; [by rewrite Hres|].
  intros now'. eexists. split.
  - rewrite (get_stored_live now' key res.2
               (new_row now (KV.set_jsonData JSON_stringify data) None)).
    + by apply format_new_row.
    + rewrite Hres. apply lookup_insert_eq.
    + by left.
  - done.
Qed.

(** C10.  The expiration of the row [set] writes.  With a ttl it is
    what the column makes of the number
    [Math.floor(Date.now() / 1000) + ttl], whether or not an expiresAt
    is given as well; for a whole ttl, with the seconds of the clock,
    the ttl and their sum below 2^53, that is the integer sum.  With
    an expiresAt alone it is the whole second its time lies in, the
    quotient by 1000 rounded down, and none for an Invalid Date.  With
    neither there is none. *)
Theorem set_expiration_precedence Date_now fault now key data opts (st : Store) :
  let res := KV.set JSON_stringify Date_now fault now key data opts st in
  res.1 = Return true →
  ∃ r, res.2 !! key = Some r
       ∧ (∀ ttl, KV.opt_ttl opts = Some ttl →
            Row.expires_at r
            = integer_affinity (number_of_Z (Date_now / 1000) + ttl)%float
            ∧ ∀ t, ttl = number_of_Z t →
                   Z.abs (Date_now / 1000) < 2 ^ 53 → Z.abs t < 2 ^ 53 →
                   Z.abs (Date_now / 1000 + t) < 2 ^ 53 →
                   Row.expires_at r = Some (INTEGER (Date_now / 1000 + t)))
       ∧ (∀ d, KV.opt_ttl opts = None → KV.opt_expiresAt opts = Some d →
            match KV.getTime d with
            | Some ms => ∃ secs, Row.expires_at r = Some (INTEGER secs)
                                 ∧ 1000 * secs ≤ ms < 1000 * secs + 1000
            | None => Row.expires_at r = None
            end)
       ∧ (KV.opt_ttl opts = None → KV.opt_expiresAt opts = None →
            Row.expires_at r = None).
Proof.
  intros res Ht. unfold res. rewrite (set_true_row _ _ _ _ _ _ _ Ht).
  eexists. split; [apply lookup_insert_eq|].
  unfold new_row, KV.set_expiresAt. cbn [Row.expires_at].
  split_and!.
  - intros ttl ->. split; [done|]. intros t -> H1 H2 H3.
    by apply FloatFacts.integer_affinity_add.
  - intros d -> ->. unfold KV.epoch_seconds.
    destruct (KV.getTime d) as [ms|] eqn:Hd; [|done].
    exists (ms / 1000).
    assert (Z.abs ms ≤ KV.MAX_TIME) as Hms.
    { destruct d as [ms'|]; [|done]. simpl in Hd.
      destruct (Z.leb_spec (Z.abs ms') KV.MAX_TIME); [|done]. by injection Hd as <-. }
    pose proof (Z.div_mod ms 1000 ltac:(lia)).
    pose proof (Z.mod_pos_bound ms 1000 ltac:(lia)).
    unfold KV.MAX_TIME in Hms. split; [|lia].
    apply FloatFacts.integer_affinity_number_of_Z. lia.
  - by intros -> ->.
Qed.

End SetGet.

(** The test "replaces existing value", without a ttl: [a] is
    overwritten at time 60. *)
Lemma set_replace_overwrites_witness :
  KV.truthy (KV.opt_replace Samples.replace_opts) = true
  ∧ (KV.set Booleans.stringify 60000 None 60 "a" (Some false)
       Samples.replace_opts Samples.abc).1 = Return true
  ∧ KV.get Booleans.parse 99 "a"
      (KV.set Booleans.stringify 60000 None 60 "a" (Some false)
         Samples.replace_opts Samples.abc).2
    = Return (Some (KV.mkEntry (Some false) (Int 0) None 60000 60000)).
Proof.
  pose proof (set_replace_overwrites Booleans.stringify Booleans.parse 60000 60 "a"
                (Some false) Samples.replace_opts Samples.abc eq_refl)
    as (H1 & _ & _ & H4).
  split; [reflexivity|]. split.
  - by rewrite H1.
  - apply (H4 eq_refl eq_refl). reflexivity.
Defined.

(** The test "deletes expired value before setting": [b] has expired
    and is set again. *)
Lemma set_get_roundtrip_witness :
  ¬ Spec.has_live 60 "b" Samples.abc
  ∧ Spec.serializable Booleans.stringify Booleans.parse (Some true)
  ∧ (KV.set Booleans.stringify 60000 None 60 "b" (Some true) KV.no_opts Samples.abc).1
    = Return true
  ∧ ∃ e, KV.get Booleans.parse 61 "b"
           (KV.set Booleans.stringify 60000 None 60 "b" (Some true) KV.no_opts
              Samples.abc).2 = Return (Some e)
         ∧ KV.data e = Some true ∧ KV.counter e = Int 0
         ∧ KV.expiresAt e = None
         ∧ KV.createdAt e = 60 * 1000
         ∧ KV.updatedAt e = KV.createdAt e.
Proof.
  assert (¬ Spec.has_live 60 "b" Samples.abc) as Hn.
  { apply (expired_not_has_live 60 "b" Samples.abc
             (Row.mkResult (Some "test-value") (Int 1) (Some 50) 10 10));
      [reflexivity|]. exists 50. split; [reflexivity|simpl; lia]. }
  assert (Spec.serializable Booleans.stringify Booleans.parse (Some true)) as Hser
    by reflexivity.
  pose proof (set_get_roundtrip Booleans.stringify Booleans.parse 60000 60 "b"
                (Some true) Samples.abc Hn Hser) as [H1 H2].
  split; [exact Hn|]. split; [exact Hser|]. split; [exact H1|exact (H2 61)].
Defined.

(** A call that carries both a ttl of 5 seconds and an expiresAt. *)
Lemma set_expiration_precedence_witness :
  (KV.set Booleans.stringify 60999 None 60 "k" (Some true)
     (KV.mkSetOpts None (Some (number_of_Z 5)) (Some (KV.Time 999000)))
     Samples.abc).1 = Return true
  ∧ ∃ r, (KV.set Booleans.stringify 60999 None 60 "k" (Some true)
            (KV.mkSetOpts None (Some (number_of_Z 5)) (Some (KV.Time 999000)))
            Samples.abc).2 !! "k" = Some r
         ∧ Row.expires_at r = Some (INTEGER (60999 / 1000 + 5)).
Proof.
  assert ((KV.set Booleans.stringify 60999 None 60 "k" (Some true)
             (KV.mkSetOpts None (Some (number_of_Z 5)) (Some (KV.Time 999000)))
             Samples.abc).1 = Return true)
    as Ht by reflexivity.
  split; [exact Ht|].
  destruct (set_expiration_precedence Booleans.stringify 60999 None 60 "k"
              (Some true)
              (KV.mkSetOpts None (Some (number_of_Z 5)) (Some (KV.Time 999000)))
              Samples.abc Ht)
    as (r & Hl & Httl & _).
  exists r. split; [exact Hl|].
  destruct (Httl _ eq_refl) as [_ Hsum]. apply (Hsum 5 eq_refl); reflexivity.
Defined.

(** An expiresAt a second and a half before the epoch is stored as
    second -2, where cutting off the fraction gives -1; and with a
    ttl of 2^53 - 1 at second 60 the sum of the doubles is stored,
    which is one more than the sum of the whole numbers. *)
Lemma set_floors_and_rounds :
  (∃ r, (KV.set Booleans.stringify 60000 None 60 "k" (Some true)
           (KV.mkSetOpts None None (Some (KV.Time (-1500)))) ∅).2 !! "k" = Some r
        ∧ Row.expires_at r = Some (INTEGER (-2)))
  ∧ (-1500) ÷ 1000 = -1
  ∧ (∃ r, (KV.set Booleans.stringify 60000 None 60 "k" (Some true)
             (Samples.ttl_opts (2 ^ 53 - 1)) ∅).2 !! "k" = Some r
          ∧ Row.expires_at r = Some (INTEGER 9007199254741052))
  ∧ 60000 / 1000 + (2 ^ 53 - 1) = 9007199254741051.
Proof.
  split_and!; [|reflexivity| |reflexivity]; eexists; split; reflexivity.
Qed.

(** ** Cleanup of expired rows *)

Lemma delete_where_subset now P (st : Store) k r :
  (delete_where now P st).2 !! k = Some r → st !! k = Some r.
Proof.
  destruct (keys_where P st) as [|k0 ks] eqn:E.
  - by rewrite delete_where_no_rows.
  - rewrite lookup_delete_where_Some by (by rewrite E). tauto.
Qed.

Lemma delete_where_no_expired now P (st : Store) :
  keys_where P st ≠ [] → Spec.no_expired now (delete_where now P st).2.
Proof.
  intros Hne k r Hl He. apply lookup_delete_where_Some in Hl; [|done].
  apply expired_is_expired in He. destruct Hl as (_ & Hl & _). congruence.
Qed.

Lemma no_expired_unexpired now (st : Store) :
  Spec.no_expired now (Spec.unexpired now st).
Proof.
  intros k r Hl He. apply lookup_unexpired_Some in Hl as [_ Hl].
  apply expired_is_expired in He. congruence.
Qed.

Lemma no_expired_delete now k (st : Store) :
  Spec.no_expired now st → Spec.no_expired now (delete k st).
Proof.
  intros Hno k' r Hl. apply lookup_delete_Some in Hl as [_ Hl]. by eapply Hno.
Qed.

(** [del] is one DELETE whose WHERE clause selects the given keys. *)
Lemma del_delete_where now ks (st : Store) :
  ∃ P, KV.del now ks st = (delete_where now P st).2
       ∧ ∀ k r, P k r = bool_decide (k ∈ ks).
Proof.
  destruct ks as [|k1 [|k2 ks]].
  - exists (λ _ _, false). split.
    + rewrite delete_where_no_rows; [done|]. by apply keys_where_nil.
    + intros k r. symmetry. apply bool_decide_eq_false. apply not_elem_of_nil.
  - exists (λ k _, bool_decide (k = k1)). split; [done|].
    intros k r. apply bool_decide_ext. by rewrite list_elem_of_singleton.
  - by exists (λ k _, bool_decide (k ∈ k1 :: k2 :: ks)).
Qed.

Lemma del_subset now ks (st : Store) k r :
  KV.del now ks st !! k = Some r → st !! k = Some r.
Proof.
  destruct (del_delete_where now ks st) as (P & -> & _). apply delete_where_subset.
Qed.

Lemma del_removes_expired now ks (st : Store) :
  (∃ k, k ∈ ks ∧ is_Some (st !! k)) → Spec.no_expired now (KV.del now ks st).
Proof.
  intros (k & Hin & [r Hl]). destruct (del_delete_where now ks st) as (P & -> & HP).
  apply delete_where_no_expired. intros Hnil.
  eapply keys_where_nil in Hnil; [|exact Hl].
  rewrite HP in Hnil. by apply bool_decide_eq_false in Hnil.
Qed.

Lemma del_nothing_stored now ks (st : Store) :
  (∀ k, k ∈ ks → st !! k = None) → KV.del now ks st = st.
Proof.
  intros Hnone. destruct (del_delete_where now ks st) as (P & -> & HP).
  rewrite delete_where_no_rows; [done|]. apply keys_where_nil. intros k r Hl.
  rewrite HP. apply bool_decide_eq_false. intros Hin.
  rewrite (Hnone k Hin) in Hl. done.
Qed.

Lemma del_lookup now ks (st : Store) k r :
  (∃ k0, k0 ∈ ks ∧ is_Some (st !! k0)) →
  KV.del now ks st !! k = Some r
  ↔ st !! k = Some r ∧ ¬ Spec.is_expired now r ∧ k ∉ ks.
Proof.
  intros (k0 & Hin & [r0 Hl0]).
  destruct (del_delete_where now ks st) as (P & -> & HP).
  rewrite lookup_delete_where_Some.
  - rewrite HP, bool_decide_eq_false, <- expired_is_expired.
    destruct (expired now r); intuition congruence.
  - intros Hnil. eapply keys_where_nil in Hnil; [|exact Hl0].
    rewrite HP in Hnil. by apply bool_decide_eq_false in Hnil.
Qed.

Lemma set_otherwise_unchanged {Json} (JSON_stringify : Json → string)
    Date_now fault now key data opts (st : Store) :
  (KV.set JSON_stringify Date_now fault now key data opts st).1 ≠ Return true →
  (KV.set JSON_stringify Date_now fault now key data opts st).2 = st.
Proof.
  intros Hnt. destruct fault as [e|].
  - unfold KV.set, insertReplace, insertIgnore.
    by destruct (KV.truthy (KV.opt_replace opts)).
  - rewrite set_runs in Hnt |- *. simpl in *.
    destruct (KV.truthy (KV.opt_replace opts)); [done|].
    by destruct (select now key st).
Qed.

(** X2.  [del] with none of its keys stored leaves the table as it is.
    Otherwise the table afterwards holds exactly the rows of the other
    keys that have not expired, each as it was. *)
Theorem del_removes_keys now ks (st : Store) :
  ((∀ k, k ∈ ks → st !! k = None) → KV.del now ks st = st)
  ∧ ((∃ k0, k0 ∈ ks ∧ is_Some (st !! k0)) →
     ∀ k r, KV.del now ks st !! k = Some r
            ↔ st !! k = Some r ∧ ¬ Spec.is_expired now r ∧ k ∉ ks).
Proof.
  split; [apply del_nothing_stored|]. intros Hsome k r. by apply del_lookup.
Qed.

(** The test "deletes multiple keys": [a] and [b] go, [c] stays. *)
Lemma del_removes_keys_witness :
  KV.del 60 ["a"; "b"] Samples.abc !! "a" = None
  ∧ KV.del 60 ["a"; "b"] Samples.abc !! "c"
    = Some (Row.mkResult None (Int 7) (Some 1000) 20 30)
  ∧ KV.del 60 ["x"; "y"] Samples.abc = Samples.abc.
Proof.
  pose proof (del_removes_keys 60 ["a"; "b"] Samples.abc) as [_ Hsome].
  pose proof (del_removes_keys 60 ["x"; "y"] Samples.abc) as [Hnone _].
  assert (∃ k0, k0 ∈ ["a"; "b"] ∧ is_Some (Samples.abc !! k0)) as Hex.
  { exists "a". split; [left|by eexists]. }
  split_and!.
  - apply eq_None_not_Some. intros [r Hr]. apply (Hsome Hex) in Hr as (_ & _ & Hnin).
    apply Hnin. left.
  - apply (Hsome Hex). split; [reflexivity|]. split.
    + intros (e & [= <-] & Hle). simpl in Hle. lia.
    + intros Hin. repeat (apply elem_of_cons in Hin as [[=]|Hin]).
      by apply elem_of_nil in Hin.
  - apply Hnone. intros k Hin.
    repeat (apply elem_of_cons in Hin as [->|Hin]; [reflexivity|]).
    by apply elem_of_nil in Hin.
Defined.

Section Cleanup.

Context {Json : Type}.
Variable JSON_stringify : Json → string.
Variable JSON_parse : string → outcome (option Json).

(** C7, as the code has it.  A [set] that returns [true] has first
    removed every row that had expired, for all keys, so that
    afterwards no row other than the one just written is expired; a
    [del] that finds one of its keys stored, and a [getDel] that finds a
    live row, leave no expired row at all.  A [set] that reports a
    conflict and a [del] that finds none of its keys leave the table,
    expired rows included, as it was. *)
Theorem cleanup_on_write now (st : Store) :
  (∀ Date_now fault key data opts,
     let res := KV.set JSON_stringify Date_now fault now key data opts st in
     (res.1 = Return true →
        res.2 = <[key := new_row now (KV.set_jsonData JSON_stringify data)
                           (KV.set_expiresAt Date_now opts)]> (Spec.unexpired now st)
        ∧ Spec.no_expired now (delete key res.2))
     ∧ (res.1 ≠ Return true → res.2 = st))
  ∧ (∀ ks, ((∃ k, k ∈ ks ∧ is_Some (st !! k)) →
              Spec.no_expired now (KV.del now ks st))
           ∧ ((∀ k, k ∈ ks → st !! k = None) → KV.del now ks st = st))
  ∧ (∀ key, Spec.has_live now key st →
       Spec.no_expired now (KV.getDel JSON_parse now key st).2)
  ∧ (∀ k r, Spec.unexpired now st !! k = Some r
            ↔ st !! k = Some r ∧ ¬ Spec.is_expired now r).
Proof.
  split_and!.
  - intros Date_now fault key data opts res. split.
    + intros Ht. pose proof (set_true_row _ _ _ _ _ _ _ _ Ht) as Hrow.
      fold res in Hrow. split; [done|]. rewrite Hrow, delete_insert_eq.
      apply no_expired_delete, no_expired_unexpired.
    + apply set_otherwise_unchanged.
  - intros ks. split; [apply del_removes_expired|apply del_nothing_stored].
  - intros key (r & Hl & Hlive). rewrite (getDel_live _ _ _ _ _ Hl Hlive). simpl.
    apply no_expired_delete, no_expired_unexpired.
  - intros k r. rewrite lookup_unexpired_Some, <- expired_is_expired.
    destruct (expired now r); intuition congruence.
Qed.

End Cleanup.

(** A [set] with a ttl of 0 succeeds on the empty table and the row it
    stores is expired from the start. *)
Lemma set_can_store_expired_row :
  (KV.set Booleans.stringify 100000 None 100 "k" (Some true) (Samples.ttl_opts 0) ∅).1
  = Return true
  ∧ ∃ r, (KV.set Booleans.stringify 100000 None 100 "k" (Some true)
            (Samples.ttl_opts 0) ∅).2 !! "k" = Some r
         ∧ Spec.is_expired 100 r.
Proof.
  split; [reflexivity|].
  exists (Row.mkResult (Some "true") (Int 0) (Some 100) 100 100).
  split; [reflexivity|]. exists 100. split; [reflexivity|simpl; lia].
Qed.

(** At time 60 a [set] of a new key removes the expired row [b]; a
    [del] of the stored key [a] does so too; a [set] of [a], which is
    live, reports the conflict and leaves [b] in place. *)
Lemma cleanup_on_write_witness :
  (KV.set Booleans.stringify 60000 None 60 "k" (Some true) KV.no_opts Samples.abc).2
    !! "b" = None
  ∧ Spec.no_expired 60 (KV.del 60 ["a"] Samples.abc)
  ∧ (KV.set Booleans.stringify 60000 None 60 "a" (Some true) KV.no_opts Samples.abc).2
    = Samples.abc.
Proof.
  pose proof (cleanup_on_write Booleans.stringify Booleans.parse 60 Samples.abc)
    as (Hset & Hdel & _).
  split_and!.
  - destruct (Hset 60000 None "k" (Some true) KV.no_opts) as [[-> _] _];
      reflexivity.
  - apply Hdel. exists "a". split; [left|]. by eexists.
  - apply Hset. discriminate.
Defined.

(** ** Timestamps *)

Lemma timestamps_ok_later t now (st : Store) :
  t ≤ now → Spec.timestamps_ok t st → Spec.timestamps_ok now st.
Proof. intros Hle Hok k r Hl. specialize (Hok k r Hl). lia. Qed.

Lemma timestamps_ok_subset now (st st' : Store) :
  (∀ k r, st' !! k = Some r → st !! k = Some r) →
  Spec.timestamps_ok now st → Spec.timestamps_ok now st'.
Proof. intros Hsub Hok k r Hl. by apply (Hok k), Hsub. Qed.

Lemma timestamps_ok_insert now k r (st : Store) :
  Row.created_at r ≤ Row.updated_at r ≤ now →
  Spec.timestamps_ok now st → Spec.timestamps_ok now (<[k := r]> st).
Proof.
  intros Hr Hok k' r' Hl. apply lookup_insert_Some in Hl as [[_ <-]|[_ Hl]]; [done|].
  by apply (Hok k').
Qed.

Lemma unexpired_subset now (st : Store) k r :
  Spec.unexpired now st !! k = Some r → st !! k = Some r.
Proof. rewrite lookup_unexpired_Some. tauto. Qed.

Section Timestamps.

Context {Json : Type}.
Variable JSON_stringify : Json → string.
Variable JSON_parse : string → outcome (option Json).

Lemma getDel_subset now key (st : Store) k r :
  (KV.getDel JSON_parse now key st).2 !! k = Some r → st !! k = Some r.
Proof.
  unfold KV.getDel, deleteSelect.
  destruct (delete_where now (λ k0 r0, bool_decide (k0 = key) && live now r0) st)
    as [rs st'] eqn:E. simpl. intros Hl.
  apply (delete_where_subset now
           (λ k0 r0, bool_decide (k0 = key) && live now r0)).
  by rewrite E.
Qed.

(** The table after [increment] or [decrement]. *)
Lemma addToCounter_store now key delta (st : Store) :
  (KV.addToCounter JSON_parse now key delta st).2 = st
  ∨ ∃ r, st !! key = Some r
         ∧ (KV.addToCounter JSON_parse now key delta st).2
           = <[key := Row.set_updated_at now
                        (Row.set_counter (sql_add (Row.counter r) delta) r)]> st.
Proof.
  destruct (has_live_dec now key st) as [(r & Hl & Hlive)|Hn].
  - right. exists r. split; [done|].
    by rewrite (KV_addToCounter_live _ _ _ _ _ _ Hl Hlive).
  - left. by rewrite KV_addToCounter_not_live.
Qed.

(** The table after [set]. *)
Lemma set_store Date_now fault now key data opts (st : Store) :
  (KV.set JSON_stringify Date_now fault now key data opts st).2 = st
  ∨ (KV.set JSON_stringify Date_now fault now key data opts st).2
    = <[key := new_row now (KV.set_jsonData JSON_stringify data)
                 (KV.set_expiresAt Date_now opts)]> (Spec.unexpired now st).
Proof.
  destruct (decide ((KV.set JSON_stringify Date_now fault now key data opts st).1
                    = Return true)) as [Ht|Hnt].
  - right. by apply set_true_row.
  - left. by apply set_otherwise_unchanged.
Qed.

Lemma step_timestamps_ok t now c (st : Store) :
  t ≤ now → Spec.timestamps_ok t st →
  Spec.timestamps_ok now (Trace.step JSON_stringify JSON_parse now c st).
Proof.
  intros Hle Hok. apply (timestamps_ok_later t now) in Hok; [|done].
  destruct c as [k|k|k d o dn f|ks|k|k]; simpl.
  - done.
  - eapply timestamps_ok_subset; [|done]. apply getDel_subset.
  - destruct (set_store dn f now k d o st) as [-> | ->]; [done|].
    apply timestamps_ok_insert; [simpl; lia|].
    eapply timestamps_ok_subset; [|done]. apply unexpired_subset.
  - eapply timestamps_ok_subset; [|done]. apply del_subset.
  - unfold KV.increment.
    destruct (addToCounter_store now k 1 st) as [-> | (r & Hl & ->)]; [done|].
    apply timestamps_ok_insert; [|done]. specialize (Hok k r Hl). simpl. lia.
  - unfold KV.decrement.
    destruct (addToCounter_store now k (-1) st) as [-> | (r & Hl & ->)]; [done|].
    apply timestamps_ok_insert; [|done]. specialize (Hok k r Hl). simpl. lia.
Qed.

Lemma run_timestamps_ok calls : ∀ t0 (st : Store),
  Spec.monotone t0 calls → Spec.timestamps_ok t0 st →
  ∃ t1, Spec.timestamps_ok t1 (Trace.run JSON_stringify JSON_parse calls st).
Proof.
  induction calls as [|[t c] calls IH]; intros t0 st Hmono Hok.
  - by exists t0.
  - destruct Hmono as [Hle Hmono]. apply (IH t); [done|].
    by apply (step_timestamps_ok t0).
Qed.

(** A call other than a [set] of [k] leaves [created_at] of the row of
    [k] alone. *)
Lemma step_created_at now c (st : Store) k r r' :
  st !! k = Some r →
  Trace.step JSON_stringify JSON_parse now c st !! k = Some r' →
  Trace.is_set k c = false →
  Row.created_at r' = Row.created_at r.
Proof.
  intros Hl Hl' Hset.
  assert (st !! k = Some r' → Row.created_at r' = Row.created_at r) as Hsame
    by (intros; congruence).
  assert (∀ k0 d, (KV.addToCounter JSON_parse now k0 d st).2 !! k = Some r' →
                  Row.created_at r' = Row.created_at r) as Hadd.
  { intros k0 d Hl0.
    destruct (addToCounter_store now k0 d st) as [E | (r0 & Hr0 & E)];
      rewrite E in Hl0; [by apply Hsame|].
    apply lookup_insert_Some in Hl0 as [[-> <-]|[_ Hl0]]; [|by apply Hsame].
    simpl. congruence. }
  destruct c as [k0|k0|k0 d o dn f|ks|k0|k0]; simpl in *.
  - by apply Hsame.
  - by apply Hsame, (getDel_subset now k0).
  - apply bool_decide_eq_false in Hset.
    destruct (set_store dn f now k0 d o st) as [E | E]; rewrite E in Hl';
      [by apply Hsame|].
    rewrite lookup_insert_ne in Hl' by done.
    by apply Hsame, (unexpired_subset now).
  - by apply Hsame, (del_subset now ks).
  - by apply (Hadd k0 1).
  - by apply (Hadd k0 (-1)).
Qed.

(** C8, as the code has it.  With a clock that does not run backwards,
    every row of a table reached by calls from the empty one (or from
    one whose rows have this property already) was created no later
    than it was last updated.  [created_at] of the
    row of [k] is left alone by every call other than a [set] of [k];
    a [set] that returns [true], with the replace option too, writes a
    new row whose [created_at] and [updated_at] are the time of the
    call.  [increment] and [decrement] of a live row set its
    [updated_at] to the time of the call, and [get] writes nothing. *)
Theorem timestamps_kept :
  (∀ t0 calls (st : Store) k r, Spec.monotone t0 calls →
     st = ∅ ∨ Spec.timestamps_ok t0 st →
     Trace.run JSON_stringify JSON_parse calls st !! k = Some r →
     Row.created_at r ≤ Row.updated_at r)
  ∧ (∀ now c (st : Store) k r r', st !! k = Some r →
       Trace.step JSON_stringify JSON_parse now c st !! k = Some r' →
       Trace.is_set k c = false →
       Row.created_at r' = Row.created_at r)
  ∧ (∀ Date_now fault now k data opts (st : Store),
       (KV.set JSON_stringify Date_now fault now k data opts st).1 = Return true →
       ∃ r', (KV.set JSON_stringify Date_now fault now k data opts st).2 !! k = Some r'
             ∧ Row.created_at r' = now ∧ Row.updated_at r' = now)
  ∧ (∀ now k (st : Store) r, st !! k = Some r → Spec.is_live now r →
       ∃ r1 r2, (KV.increment JSON_parse now k st).2 !! k = Some r1
                ∧ (KV.decrement JSON_parse now k st).2 !! k = Some r2
                ∧ Row.updated_at r1 = now ∧ Row.updated_at r2 = now)
  ∧ (∀ now k (st : Store),
       Trace.step JSON_stringify JSON_parse now (Trace.call_get k) st = st).
Proof.
  split_and!.
  - intros t0 calls st k r Hmono Hst Hl.
    destruct (run_timestamps_ok calls t0 st Hmono) as (t1 & Hok).
    + by destruct Hst as [-> | Hst].
    + specialize (Hok k r Hl). lia.
  - apply step_created_at.
  - intros Date_now fault now k data opts st Ht.
    rewrite (set_true_row _ _ _ _ _ _ _ _ Ht).
    eexists. split; [apply lookup_insert_eq|done].
  - intros now k st r Hl Hlive. unfold KV.increment, KV.decrement.
    rewrite !(KV_addToCounter_live _ _ _ _ _ _ Hl Hlive). simpl.
    eexists _, _. rewrite !lookup_insert_eq. done.
  - done.
Qed.

End Timestamps.

(** The test "replaces existing value" at two different times: the row
    written at time 100 is replaced at time 200 and its [created_at] is
    then 200. *)
Lemma set_replace_resets_created_at :
  Row.created_at
    <$> (KV.set Booleans.stringify 100000 None 100 "k" (Some true) KV.no_opts ∅).2
        !! "k" = Some 100
  ∧ Row.created_at
      <$> (KV.set Booleans.stringify 200000 None 200 "k" (Some false)
             Samples.replace_opts
             (KV.set Booleans.stringify 100000 None 100 "k" (Some true)
                KV.no_opts ∅).2).2 !! "k" = Some 200.
Proof. split; reflexivity. Qed.

(** A row is set at time 100, incremented at 150 and read at 160: it
    keeps [created_at] 100 and has [updated_at] 150. *)
Lemma timestamps_kept_witness :
  Spec.monotone 0 [(100, Trace.call_set "k" (Some true) KV.no_opts 100000 None);
                   (150, Trace.call_increment "k"); (160, Trace.call_get "k")]
  ∧ Trace.run Booleans.stringify Booleans.parse
      [(100, Trace.call_set "k" (Some true) KV.no_opts 100000 None);
       (150, Trace.call_increment "k"); (160, Trace.call_get "k")] ∅ !! "k"
    = Some (Row.mkResult (Some "true") (Int 1) None 100 150)
  ∧ Row.created_at (Row.mkResult (Some "true") (Int 1) None 100 150)
    ≤ Row.updated_at (Row.mkResult (Some "true") (Int 1) None 100 150).
Proof.
  assert (Spec.monotone 0
            [(100, Trace.call_set "k" (Some true) KV.no_opts 100000 None);
             (150, Trace.call_increment "k"); (160, Trace.call_get (Json:=bool) "k")])
    as Hmono by (simpl; lia).
  split; [exact Hmono|]. split; [reflexivity|].
  pose proof (timestamps_kept Booleans.stringify Booleans.parse) as (Hinv & _).
  apply (Hinv 0 _ ∅ "k" _ Hmono); [by left|reflexivity].
Defined.

End KVFacts.

(** * How the methods compose *)
Module KVLaws.
Import Sql SqlFacts statements StatementFacts KVFacts.

(** ** Deleting *)

Lemma stored_or_not (ks : list string) (st : Store) :
  (∃ k, k ∈ ks ∧ is_Some (st !! k)) ∨ (∀ k, k ∈ ks → st !! k = None).
Proof.
  induction ks as [|k0 ks IH].
  - right. intros k Hin. by apply elem_of_nil in Hin.
  - destruct (st !! k0) as [r|] eqn:E.
    + left. exists k0. split; [left|by eexists].
    + destruct IH as [(k & Hin & Hs)|Hnone].
      * left. exists k. split; [by right|done].
      * right. intros k Hin. apply elem_of_cons in Hin as [->|Hin]; auto.
Qed.

(** After [del] none of its keys is stored. *)
Lemma del_lookup_in now (ks : list string) (st : Store) k :
  k ∈ ks → KV.del now ks st !! k = None.
Proof.
  intros Hin. destruct (stored_or_not ks st) as [Hs|Hnone].
  - apply eq_None_not_Some. intros [r Hr].
    apply (del_lookup now ks st k r Hs) in Hr as (_ & _ & Hnin). done.
  - rewrite del_nothing_stored by done. by apply Hnone.
Qed.

Lemma del_single_stored now k (st : Store) :
  is_Some (st !! k) → KV.del now [k] st = delete k (Spec.unexpired now st).
Proof.
  intros Hs. apply map_eq. intros k'. apply option_eq. intros r.
  rewrite del_lookup by (exists k; split; [left|done]).
  rewrite lookup_delete_Some, lookup_unexpired_Some, <- expired_is_expired.
  rewrite list_elem_of_singleton. destruct (expired now r); intuition congruence.
Qed.

Section GetDel.

Context {Json : Type}.
Variable JSON_parse : string → outcome (option Json).

(** X3.  [getDel(k)] returns exactly what [get(k)] returns at the same
    time.  When there is a live row for [k] it leaves the table as
    [del(k)] does; when there is none it leaves the table as it is. *)
Theorem getDel_is_get_then_del now key (st : Store) :
  (KV.getDel JSON_parse now key st).1 = KV.get JSON_parse now key st
  ∧ (Spec.has_live now key st →
       (KV.getDel JSON_parse now key st).2 = KV.del now [key] st)
  ∧ (¬ Spec.has_live now key st → (KV.getDel JSON_parse now key st).2 = st).
Proof.
  destruct (has_live_dec now key st) as [(r & Hl & Hlive)|Hn].
  - rewrite (getDel_live _ _ _ _ _ Hl Hlive). simpl. split_and!.
    + symmetry. by apply get_stored_live.
    + intros _. symmetry. apply del_single_stored. by eexists.
    + intros Hn. exfalso. apply Hn. by exists r.
  - rewrite (getDel_not_live _ _ _ _ Hn). simpl. split_and!; [|done..].
    symmetry. by apply get_not_live.
Qed.

End GetDel.

(** On the table [abc] at time 60: [a] is live, [b] has expired. *)
Lemma getDel_is_get_then_del_witness :
  (KV.getDel Booleans.parse 60 "a" Samples.abc).1
  = KV.get Booleans.parse 60 "a" Samples.abc
  ∧ (KV.getDel Booleans.parse 60 "a" Samples.abc).2 = KV.del 60 ["a"] Samples.abc
  ∧ (KV.getDel Booleans.parse 60 "b" Samples.abc).2 = Samples.abc.
Proof.
  pose proof (getDel_is_get_then_del Booleans.parse 60 "a" Samples.abc)
    as (H1 & H2 & _).
  pose proof (getDel_is_get_then_del Booleans.parse 60 "b" Samples.abc)
    as (_ & _ & H3).
  split; [exact H1|]. split.
  - apply H2. exists (Row.mkResult (Some "true") (Int 0) None 10 10).
    split; [reflexivity|by left].
  - apply H3.
    apply (expired_not_has_live 60 "b" Samples.abc
             (Row.mkResult (Some "test-value") (Int 1) (Some 50) 10 10));
      [reflexivity|]. exists 50. split; [reflexivity|simpl; lia].
Defined.

(** X4.  Deleting in two calls at the same time is deleting in one:
    [del(...ks2)] after [del(...ks1)] leaves the table [del(...ks1,
    ...ks2)] leaves.  Deleting the same keys again, at any time,
    changes nothing. *)
Theorem del_twice now now' (ks1 ks2 : list string) (st : Store) :
  KV.del now ks2 (KV.del now ks1 st) = KV.del now (ks1 ++ ks2) st
  ∧ KV.del now' ks1 (KV.del now ks1 st) = KV.del now ks1 st.
Proof.
  split.
  - apply map_eq. intros k. apply option_eq. intros r.
    destruct (stored_or_not ks1 st) as [Hs1|Hn1].
    + assert (∃ k0, k0 ∈ ks1 ++ ks2 ∧ is_Some (st !! k0)) as Hs.
      { destruct Hs1 as (k0 & Hin & Hk0). exists k0. split; [|done].
        apply elem_of_app. by left. }
      rewrite (del_lookup now (ks1 ++ ks2) st k r Hs), elem_of_app.
      destruct (stored_or_not ks2 (KV.del now ks1 st)) as [Hs2|Hn2].
      * rewrite (del_lookup now ks2 _ k r Hs2), (del_lookup now ks1 st k r Hs1).
        tauto.
      * rewrite (del_nothing_stored _ _ _ Hn2), (del_lookup now ks1 st k r Hs1).
        split; [|tauto]. intros (Hl & He & Hnin). split_and!; [done..|].
        intros [Hin|Hin]; [done|].
        assert (KV.del now ks1 st !! k = Some r) as Hd
          by (by apply (del_lookup now ks1 st k r Hs1)).
        rewrite (Hn2 k Hin) in Hd. done.
    + rewrite (del_nothing_stored _ _ _ Hn1).
      destruct (stored_or_not ks2 st) as [Hs2|Hn2].
      * assert (∃ k0, k0 ∈ ks1 ++ ks2 ∧ is_Some (st !! k0)) as Hs.
        { destruct Hs2 as (k0 & Hin & Hk0). exists k0. split; [|done].
          apply elem_of_app. by right. }
        rewrite (del_lookup now (ks1 ++ ks2) st k r Hs), elem_of_app.
        rewrite (del_lookup now ks2 st k r Hs2).
        split; [|tauto]. intros (Hl & He & Hnin). split_and!; [done..|].
        intros [Hin|Hin]; [|done]. rewrite (Hn1 k Hin) in Hl. done.
      * rewrite (del_nothing_stored _ _ _ Hn2).
        rewrite del_nothing_stored; [done|].
        intros k0 Hin. apply elem_of_app in Hin as [Hin|Hin]; auto.
  - apply del_nothing_stored. intros k Hin. by apply del_lookup_in.
Qed.

(** The test "deletes multiple keys", in two calls and in one. *)
Lemma del_twice_witness :
  KV.del 60 ["b"] (KV.del 60 ["a"] Samples.abc) = KV.del 60 ["a"; "b"] Samples.abc
  ∧ KV.del 99 ["a"] (KV.del 60 ["a"] Samples.abc) = KV.del 60 ["a"] Samples.abc.
Proof.
  split.
  - apply (del_twice 60 60 ["a"] ["b"] Samples.abc).
  - apply (del_twice 60 99 ["a"] ["b"] Samples.abc).
Defined.

(** ** Reads of one key and calls on others *)

Section Reads.

Context {Json : Type}.
Variable JSON_stringify : Json → string.
Variable JSON_parse : string → outcome (option Json).

(** Removing the rows that had expired by [now] is not seen by a [get]
    at [now] or later. *)
Lemma get_unexpired now now' key (st : Store) :
  now ≤ now' →
  KV.get JSON_parse now' key (Spec.unexpired now st) = KV.get JSON_parse now' key st.
Proof.
  intros Hle. unfold KV.get, select.
  destruct (st !! key) as [r|] eqn:Hl.
  - destruct (expired now r) eqn:He.
    + rewrite (proj2 (lookup_unexpired_None now st key)) by congruence.
      assert (live now' r = false) as ->; [|done].
      apply not_live_is_expired, (is_expired_mono now); [done|].
      by apply expired_is_expired.
    + by rewrite (proj2 (lookup_unexpired_Some now st key r)).
  - by rewrite (proj2 (lookup_unexpired_None now st key)) by congruence.
Qed.

Lemma get_lookup_ext now key (st st' : Store) :
  st' !! key = st !! key → KV.get JSON_parse now key st' = KV.get JSON_parse now key st.
Proof. intros H. unfold KV.get, select. by rewrite H. Qed.

(** A call that does not name [k] leaves the row of [k] as it is or
    removes it because it had expired. *)
Lemma step_lookup_frame now c (st : Store) k :
  Trace.touches k c = false →
  Trace.step JSON_stringify JSON_parse now c st !! k = st !! k
  ∨ Trace.step JSON_stringify JSON_parse now c st !! k = Spec.unexpired now st !! k.
Proof.
  intros Ht.
  assert (∀ k0 d, k0 ≠ k →
            (KV.addToCounter JSON_parse now k0 d st).2 !! k = st !! k) as Hadd.
  { intros k0 d Hne.
    destruct (addToCounter_store JSON_parse now k0 d st) as [-> | (r & _ & ->)];
      [done|]. by rewrite lookup_insert_ne. }
  destruct c as [k0|k0|k0 d o dn f|ks|k0|k0]; simpl in *;
    try apply bool_decide_eq_false in Ht.
  - by left.
  - destruct (has_live_dec now k0 st) as [(r & Hl & Hlive)|Hn].
    + right. rewrite (getDel_live _ _ _ _ _ Hl Hlive). simpl.
      by rewrite lookup_delete_ne.
    + left. by rewrite (getDel_not_live _ _ _ _ Hn).
  - destruct (set_store JSON_stringify dn f now k0 d o st) as [-> | ->];
      [by left|right]. by rewrite lookup_insert_ne.
  - destruct (stored_or_not ks st) as [Hs|Hnone].
    + right. apply option_eq. intros r.
      rewrite (del_lookup now ks st k r Hs), lookup_unexpired_Some,
        <- expired_is_expired.
      destruct (expired now r); intuition congruence.
    + left. by rewrite del_nothing_stored.
  - left. by apply Hadd.
  - left. by apply Hadd.
Qed.

(** X5.  Calls that do not name [k], made no later than [now'], do not
    change what [get(k)] returns at [now']: not a [set], [del],
    [getDel], [increment] or [decrement] of other keys, and not the
    removal of expired rows that comes with them. *)
Theorem get_frame calls now' key (st : Store) :
  (∀ t c, (t, c) ∈ calls → t ≤ now' ∧ Trace.touches key c = false) →
  KV.get JSON_parse now' key (Trace.run JSON_stringify JSON_parse calls st)
  = KV.get JSON_parse now' key st.
Proof.
  revert st. induction calls as [|[t c] calls IH]; intros st Hall; [done|].
  simpl. rewrite IH by (intros t' c' Hin; apply Hall; by right).
  destruct (Hall t c ltac:(left)) as [Hle Ht].
  destruct (step_lookup_frame t c st key Ht) as [E|E].
  - by apply get_lookup_ext.
  - rewrite (get_lookup_ext now' key (Spec.unexpired t st)) by done.
    by apply get_unexpired.
Qed.

(** A call other than a [set] of [k], made when [k] has no live row,
    stores no row for [k] that was not stored before. *)
Lemma step_dead_subset t c (st : Store) k r :
  ¬ Spec.has_live t k st → Trace.is_set k c = false →
  Trace.step JSON_stringify JSON_parse t c st !! k = Some r → st !! k = Some r.
Proof.
  intros Hdead Hset.
  assert (∀ k0 d, (KV.addToCounter JSON_parse t k0 d st).2 !! k = Some r →
                  st !! k = Some r) as Hadd.
  { intros k0 d. destruct (decide (k0 = k)) as [->|Hne].
    - by rewrite KV_addToCounter_not_live.
    - destruct (addToCounter_store JSON_parse t k0 d st) as [-> | (r0 & _ & ->)];
        [done|]. by rewrite lookup_insert_ne. }
  destruct c as [k0|k0|k0 d o dn f|ks|k0|k0]; simpl in *.
  - done.
  - apply getDel_subset.
  - apply bool_decide_eq_false in Hset.
    destruct (set_store JSON_stringify dn f t k0 d o st) as [-> | ->]; [done|].
    rewrite lookup_insert_ne by done. apply unexpired_subset.
  - apply del_subset.
  - apply Hadd.
  - apply Hadd.
Qed.

(** X6.  A key without a live row at [t0] has none later, whatever is
    called, until a [set] of that key: after calls made at [t0] or
    later, none of them a [set] of [k], [get(k)] at [t0] or later
    returns [null].  An expired or deleted entry does not come back. *)
Theorem absent_until_set calls t0 now' key (st : Store) :
  ¬ Spec.has_live t0 key st →
  (∀ t c, (t, c) ∈ calls → t0 ≤ t ∧ Trace.is_set key c = false) →
  t0 ≤ now' →
  KV.get JSON_parse now' key (Trace.run JSON_stringify JSON_parse calls st)
  = Return None.
Proof.
  revert st. induction calls as [|[t c] calls IH]; intros st Hdead Hall Hle.
  - apply get_not_live. by apply (not_has_live_later t0).
  - simpl. apply IH; [|intros t' c' Hin; apply Hall; by right|done].
    destruct (Hall t c ltac:(left)) as [Ht Hset].
    intros (r & Hl & Hlive). apply Hdead. exists r. split; [|done].
    apply (step_dead_subset t c); [|done..].
    by apply (not_has_live_later t0).
Qed.

(** X7.  After [del], each of its keys is gone for good: at any time
    [get], [getDel], [increment] and [decrement] of it return [null]
    and leave the table as it is; no row comes into being. *)
Theorem del_then_reads now now' ks key (st : Store) :
  key ∈ ks →
  let st' := KV.del now ks st in
  st' !! key = None
  ∧ KV.get JSON_parse now' key st' = Return None
  ∧ KV.getDel JSON_parse now' key st' = (Return None, st')
  ∧ KV.increment JSON_parse now' key st' = (Return None, st')
  ∧ KV.decrement JSON_parse now' key st' = (Return None, st').
Proof.
  intros Hin st'.
  assert (st' !! key = None) as Hnone by (by apply del_lookup_in).
  assert (¬ Spec.has_live now' key st') as Hdead.
  { intros (r & Hl & _). congruence. }
  split_and!; [done| | | |].
  - by apply get_not_live.
  - by apply getDel_not_live.
  - by apply KV_addToCounter_not_live.
  - by apply KV_addToCounter_not_live.
Qed.

End Reads.

(** Deleting [c] and [b], setting [k] and incrementing it leave what
    [get("a")] returns as it was. *)
Lemma get_frame_witness :
  KV.get Booleans.parse 70 "a"
    (Trace.run Booleans.stringify Booleans.parse
       [(60, Trace.call_del ["c"; "b"]);
        (65, Trace.call_set "k" (Some false) KV.no_opts 65000 None);
        (70, Trace.call_increment "k")] Samples.abc)
  = KV.get Booleans.parse 70 "a" Samples.abc.
Proof.
  apply (get_frame Booleans.stringify Booleans.parse). intros t c Hin.
  repeat (apply elem_of_cons in Hin as [[= -> ->]|Hin]; [split; [lia|reflexivity]|]).
  by apply elem_of_nil in Hin.
Defined.

(** [b] has expired at time 60; reads, increments and writes of other
    keys do not bring it back. *)
Lemma absent_until_set_witness :
  ¬ Spec.has_live 60 "b" Samples.abc
  ∧ KV.get Booleans.parse 80 "b"
      (Trace.run Booleans.stringify Booleans.parse
         [(60, Trace.call_increment "b");
          (61, Trace.call_set "k" (Some false) KV.no_opts 61000 None);
          (70, Trace.call_getDel "b")] Samples.abc)
    = Return None.
Proof.
  assert (¬ Spec.has_live 60 "b" Samples.abc) as Hdead.
  { apply (expired_not_has_live 60 "b" Samples.abc
             (Row.mkResult (Some "test-value") (Int 1) (Some 50) 10 10));
      [reflexivity|]. exists 50. split; [reflexivity|simpl; lia]. }
  split; [exact Hdead|].
  apply (absent_until_set Booleans.stringify Booleans.parse _ 60 80 "b" Samples.abc
           Hdead); [|lia].
  intros t c Hin.
  repeat (apply elem_of_cons in Hin as [[= -> ->]|Hin]; [split; [lia|reflexivity]|]).
  by apply elem_of_nil in Hin.
Defined.

(** The test "deletes multiple keys", followed by an increment. *)
Lemma del_then_reads_witness :
  "a" ∈ ["a"; "c"]
  ∧ KV.get Booleans.parse 60 "a" (KV.del 60 ["a"; "c"] Samples.abc) = Return None
  ∧ KV.increment Booleans.parse 61 "a" (KV.del 60 ["a"; "c"] Samples.abc)
    = (Return None, KV.del 60 ["a"; "c"] Samples.abc).
Proof.
  assert ("a" ∈ ["a"; "c"]) as Hin by left.
  split; [exact Hin|]. split.
  - apply (del_then_reads Booleans.parse 60 60 ["a"; "c"] "a" Samples.abc Hin).
  - apply (del_then_reads Booleans.parse 60 61 ["a"; "c"] "a" Samples.abc Hin).
Defined.

(** ** Writing *)

Section Writes.

Context {Json : Type}.
Variable JSON_stringify : Json → string.
Variable JSON_parse : string → outcome (option Json).

Lemma format_new_row_expiring now data exp :
  Spec.serializable JSON_stringify JSON_parse data →
  KV.format JSON_parse
    (Some (new_row now (KV.set_jsonData JSON_stringify data) exp))
  = Return (Some (KV.mkEntry data (Int 0)
                    (KV.format_expiresAt (exp ≫= integer_affinity))
                    (now * 1000) (now * 1000))).
Proof.
  intros Hser. unfold KV.format, new_row. simpl.
  destruct data as [d|]; simpl in *; [|done]. by rewrite Hser.
Qed.

(** X8.  The row a successful [set] writes with a whole second [exp]
    as its expiration is returned by [get] at every time before [exp]
    and at no time from [exp] on: the bound is exclusive, so a ttl of 0
    or less gives an entry that is never read back.  The [expiresAt]
    of the entry is [new Date(exp * 1000)], Invalid Date when that is
    beyond the range of dates, and [null] when [exp] is 0.  For a
    whole ttl [t], with the seconds of the clock, [t] and their sum
    below 2^53, [exp] is that sum. *)
Theorem set_expiry_boundary Date_now fault now key data opts (st : Store) r exp :
  (KV.set JSON_stringify Date_now fault now key data opts st).1 = Return true →
  let st' := (KV.set JSON_stringify Date_now fault now key data opts st).2 in
  st' !! key = Some r →
  Row.expires_at r = Some (INTEGER exp) →
  (∀ now', exp ≤ now' → KV.get JSON_parse now' key st' = Return None)
  ∧ (∀ now', now' < exp → Spec.serializable JSON_stringify JSON_parse data →
       KV.get JSON_parse now' key st'
       = Return (Some (KV.mkEntry data (Int 0)
                         (if bool_decide (exp = 0) then None
                          else Some (KV.new_Date (exp * 1000)))
                         (KV.new_Date (now * 1000)) (KV.new_Date (now * 1000)))))
  ∧ (∀ t, KV.opt_ttl opts = Some (number_of_Z t) →
       Z.abs (Date_now / 1000) < 2 ^ 53 → Z.abs t < 2 ^ 53 →
       Z.abs (Date_now / 1000 + t) < 2 ^ 53 →
       exp = Date_now / 1000 + t).
Proof.
  intros Ht st' Hr Hexp.
  assert (st' !! key
          = Some (new_row now (KV.set_jsonData JSON_stringify data)
                    (KV.set_expiresAt Date_now opts)))
    as Hrow.
  { unfold st'. rewrite (set_true_row _ _ _ _ _ _ _ _ Ht).
    apply lookup_insert_eq. }
  assert (KV.set_expiresAt Date_now opts ≫= integer_affinity = Some (INTEGER exp))
    as Hcol.
  { rewrite Hrow in Hr. injection Hr as <-. exact Hexp. }
  split_and!.
  - intros now' Hle. apply get_not_live.
    apply (expired_not_has_live now' key st' _ Hr).
    exists (INTEGER exp). split; [done|]. simpl. lia.
  - intros now' Hlt Hser.
    rewrite (get_stored_live JSON_parse now' key st' _ Hrow).
    + rewrite (format_new_row_expiring _ _ _ Hser), Hcol. done.
    + rewrite Hrow in Hr. injection Hr as ->.
      right. exists (INTEGER exp). split; [done|]. simpl. lia.
  - intros t Httl H1 H2 H3. unfold KV.set_expiresAt in Hcol.
    rewrite Httl in Hcol. simpl in Hcol.
    rewrite FloatFacts.integer_affinity_add in Hcol by done.
    by injection Hcol.
Qed.

(** X9.  [set] with the replace option is [del] of the key followed by
    [set] without it, at the same time: both return [true] and leave
    the same table. *)
Theorem set_replace_is_del_then_set Date_now now key data opts (st : Store) :
  KV.truthy (KV.opt_replace opts) = true →
  KV.set JSON_stringify Date_now None now key data opts st
  = KV.set JSON_stringify Date_now None now key data
      (KV.mkSetOpts None (KV.opt_ttl opts) (KV.opt_expiresAt opts))
      (KV.del now [key] st).
Proof.
  intros Hrep. rewrite !set_runs, Hrep. simpl.
  change (deleteSingle now key st) with (KV.del now [key] st).
  assert (select now key (KV.del now [key] st) = None) as ->.
  { unfold select. by rewrite del_lookup_in by left. }
  unfold KV.set_expiresAt. simpl.
  change (deleteSingle now key st) with (KV.del now [key] st). f_equal.
  destruct (st !! key) as [r|] eqn:Hl.
  - rewrite del_single_stored by (by eexists).
    by rewrite unexpired_delete, unexpired_idemp, insert_delete_eq.
  - rewrite del_nothing_stored; [done|].
    intros k Hin. by apply list_elem_of_singleton in Hin as ->.
Qed.

(** X10.  The first writer wins: while the row a successful [set] has
    written is live, a [set] of the same key without the replace
    option returns [false] and changes nothing, so [get] still returns
    the first value. *)
Theorem set_conflict_keeps_first Date_now fault now key data opts (st : Store)
    Date_now' now' data' opts' :
  (KV.set JSON_stringify Date_now fault now key data opts st).1 = Return true →
  let st1 := (KV.set JSON_stringify Date_now fault now key data opts st).2 in
  let row := new_row now (KV.set_jsonData JSON_stringify data)
               (KV.set_expiresAt Date_now opts) in
  Spec.is_live now' row →
  KV.truthy (KV.opt_replace opts') = false →
  KV.set JSON_stringify Date_now' None now' key data' opts' st1 = (Return false, st1)
  ∧ KV.get JSON_parse now' key st1 = KV.format JSON_parse (Some row).
Proof.
  intros Ht st1 row Hlive Hrep.
  assert (st1 !! key = Some row) as Hrow.
  { unfold st1. rewrite (set_true_row _ _ _ _ _ _ _ _ Ht). apply lookup_insert_eq. }
  split.
  - rewrite set_runs, Hrep.
    by rewrite (proj2 (select_Some now' key st1 row) (conj Hrow Hlive)).
  - by apply get_stored_live.
Qed.

(** X18.  An expiration that is not a number is no expiration.  When
    the ttl is NaN, or there is no ttl and the expiresAt is an Invalid
    Date, a successful [set] stores the row without an expiration, and
    [get] returns the entry at every time from then on, with
    [expiresAt] [null]. *)
Theorem set_nan_never_expires Date_now fault now key data opts (st : Store) :
  (KV.set JSON_stringify Date_now fault now key data opts st).1 = Return true →
  KV.opt_ttl opts = Some nan
  ∨ (KV.opt_ttl opts = None
     ∧ ∃ d, KV.opt_expiresAt opts = Some d ∧ KV.getTime d = None) →
  let st' := (KV.set JSON_stringify Date_now fault now key data opts st).2 in
  st' !! key = Some (Row.mkResult (KV.set_jsonData JSON_stringify data) (Int 0)
                       None now now)
  ∧ (Spec.serializable JSON_stringify JSON_parse data →
     ∀ now', KV.get JSON_parse now' key st'
             = Return (Some (KV.mkEntry data (Int 0) None
                               (now * 1000) (now * 1000)))).
Proof.
  intros Ht Hnan st'.
  assert (KV.set_expiresAt Date_now opts ≫= integer_affinity = None) as Hcol.
  { unfold KV.set_expiresAt, KV.epoch_seconds.
    destruct Hnan as [->|(-> & d & -> & ->)]; simpl; [|done].
    apply FloatFacts.integer_affinity_add_nan. }
  assert (st' !! key = Some (new_row now (KV.set_jsonData JSON_stringify data) None))
    as Hrow.
  { unfold st'. rewrite (set_true_row _ _ _ _ _ _ _ _ Ht).
    rewrite lookup_insert_eq. unfold new_row. by rewrite Hcol. }
  split; [exact Hrow|]. intros Hser now'.
  rewrite (get_stored_live JSON_parse now' key st' _ Hrow); [|by left].
  by apply format_new_row.
Qed.

End Writes.

(** A ttl of 5 seconds given at time 60: read at 64, gone at 65. *)
Lemma set_expiry_boundary_witness :
  (KV.set Booleans.stringify 60000 None 60 "k" (Some true) (Samples.ttl_opts 5)
     Samples.abc).1 = Return true
  ∧ (KV.set Booleans.stringify 60000 None 60 "k" (Some true) (Samples.ttl_opts 5)
       Samples.abc).2 !! "k"
    = Some (Row.mkResult (Some "true") (Int 0) (Some 65) 60 60)
  ∧ KV.get Booleans.parse 64 "k"
      (KV.set Booleans.stringify 60000 None 60 "k" (Some true) (Samples.ttl_opts 5)
         Samples.abc).2
    = Return (Some (KV.mkEntry (Some true) (Int 0) (Some 65000) 60000 60000))
  ∧ KV.get Booleans.parse 65 "k"
      (KV.set Booleans.stringify 60000 None 60 "k" (Some true) (Samples.ttl_opts 5)
         Samples.abc).2
    = Return None.
Proof.
  assert ((KV.set Booleans.stringify 60000 None 60 "k" (Some true)
             (Samples.ttl_opts 5) Samples.abc).1 = Return true) as Ht by reflexivity.
  assert ((KV.set Booleans.stringify 60000 None 60 "k" (Some true) (Samples.ttl_opts 5)
             Samples.abc).2 !! "k"
          = Some (Row.mkResult (Some "true") (Int 0) (Some 65) 60 60)) as Hr
    by reflexivity.
  pose proof (set_expiry_boundary Booleans.stringify Booleans.parse
                60000 None 60 "k" (Some true) (Samples.ttl_opts 5) Samples.abc
                _ 65 Ht Hr eq_refl) as (Hgone & Hread & _).
  split; [exact Ht|]. split; [exact Hr|]. split.
  - apply (Hread 64); [lia|reflexivity].
  - apply (Hgone 65). lia.
Defined.

(** An Invalid Date as [expiresAt], set at time 60 and read long
    after. *)
Lemma set_nan_never_expires_witness :
  (KV.set Booleans.stringify 60000 None 60 "k" (Some true)
     (KV.mkSetOpts None None (Some KV.Invalid_Date)) Samples.abc).1 = Return true
  ∧ KV.get Booleans.parse 4102444800 "k"
      (KV.set Booleans.stringify 60000 None 60 "k" (Some true)
         (KV.mkSetOpts None None (Some KV.Invalid_Date)) Samples.abc).2
    = Return (Some (KV.mkEntry (Some true) (Int 0) None 60000 60000)).
Proof.
  assert ((KV.set Booleans.stringify 60000 None 60 "k" (Some true)
             (KV.mkSetOpts None None (Some KV.Invalid_Date)) Samples.abc).1
          = Return true) as Ht by reflexivity.
  split; [exact Ht|].
  refine (proj2 (set_nan_never_expires Booleans.stringify Booleans.parse
                   60000 None 60 "k" (Some true)
                   (KV.mkSetOpts None None (Some KV.Invalid_Date)) Samples.abc Ht _)
            _ 4102444800).
  - right. split; [reflexivity|]. by exists KV.Invalid_Date.
  - reflexivity.
Defined.

(** Replacing the live row [a] at time 60. *)
Lemma set_replace_is_del_then_set_witness :
  KV.truthy (KV.opt_replace Samples.replace_opts) = true
  ∧ KV.set Booleans.stringify 60000 None 60 "a" (Some false) Samples.replace_opts
      Samples.abc
    = KV.set Booleans.stringify 60000 None 60 "a" (Some false) KV.no_opts
        (KV.del 60 ["a"] Samples.abc).
Proof.
  split; [reflexivity|].
  apply (set_replace_is_del_then_set Booleans.stringify 60000 60 "a" (Some false)
           Samples.replace_opts Samples.abc eq_refl).
Defined.

(** The test "ignores on conflict": [k] is set at time 60 and set
    again at time 70. *)
Lemma set_conflict_keeps_first_witness :
  (KV.set Booleans.stringify 60000 None 60 "k" (Some true) KV.no_opts Samples.abc).1
  = Return true
  ∧ KV.set Booleans.stringify 70000 None 70 "k" (Some false) KV.no_opts
      (KV.set Booleans.stringify 60000 None 60 "k" (Some true) KV.no_opts
         Samples.abc).2
    = (Return false,
       (KV.set Booleans.stringify 60000 None 60 "k" (Some true) KV.no_opts
          Samples.abc).2)
  ∧ KV.get Booleans.parse 70 "k"
      (KV.set Booleans.stringify 60000 None 60 "k" (Some true) KV.no_opts
         Samples.abc).2
    = Return (Some (KV.mkEntry (Some true) (Int 0) None 60000 60000)).
Proof.
  assert ((KV.set Booleans.stringify 60000 None 60 "k" (Some true) KV.no_opts
             Samples.abc).1 = Return true) as Ht by reflexivity.
  pose proof (set_conflict_keeps_first Booleans.stringify Booleans.parse
                60000 None 60 "k" (Some true) KV.no_opts Samples.abc
                70000 70 (Some false) KV.no_opts Ht ltac:(by left) eq_refl)
    as [Hconflict Hget].
  split; [exact Ht|]. split; [exact Hconflict|]. rewrite Hget. reflexivity.
Defined.

(** ** What the results carry *)

Section Results.

Context {Json : Type}.
Variable JSON_stringify : Json → string.
Variable JSON_parse : string → outcome (option Json).

Lemma format_payload_ok r :
  (∀ s, Row.json_data r = Some s → ∃ v, JSON_parse s = Return v) →
  ∃ e, KV.format JSON_parse (Some r) = Return (Some e).
Proof.
  intros Hok. unfold KV.format. destruct (Row.json_data r) as [s|]; [|by eexists].
  destruct (Hok s eq_refl) as [v ->]. by eexists.
Qed.

Lemma payloads_parse_subset (st st' : Store) :
  (∀ k r, st' !! k = Some r → st !! k = Some r) →
  Spec.payloads_parse JSON_parse st → Spec.payloads_parse JSON_parse st'.
Proof. intros Hsub Hok k r s Hl. by apply (Hok k), Hsub. Qed.

Lemma payloads_parse_insert k r (st : Store) :
  (∀ s, Row.json_data r = Some s → ∃ v, JSON_parse s = Return v) →
  Spec.payloads_parse JSON_parse st → Spec.payloads_parse JSON_parse (<[k := r]> st).
Proof.
  intros Hr Hok k' r' s Hl. apply lookup_insert_Some in Hl as [[_ <-]|[_ Hl]].
  - apply Hr.
  - by apply (Hok k').
Qed.

Lemma step_payloads_parse now c (st : Store) :
  (∀ k d o dn f, c = Trace.call_set k d o dn f →
     Spec.serializable JSON_stringify JSON_parse d) →
  Spec.payloads_parse JSON_parse st →
  Spec.payloads_parse JSON_parse (Trace.step JSON_stringify JSON_parse now c st).
Proof.
  intros Hser Hok.
  assert (∀ k d, Spec.payloads_parse JSON_parse
                   (KV.addToCounter JSON_parse now k d st).2) as Hadd.
  { intros k d.
    destruct (addToCounter_store JSON_parse now k d st) as [-> | (r & Hl & ->)];
      [done|]. apply payloads_parse_insert; [|done]. simpl.
    intros s Hs. by apply (Hok k r s). }
  destruct c as [k|k|k d o dn f|ks|k|k]; simpl.
  - done.
  - eapply payloads_parse_subset; [|done]. apply getDel_subset.
  - destruct (set_store JSON_stringify dn f now k d o st) as [-> | ->]; [done|].
    apply payloads_parse_insert.
    + simpl. specialize (Hser k d o dn f eq_refl).
      destruct d as [d|]; simpl in *; [|done]. intros s [= <-]. by eexists.
    + eapply payloads_parse_subset; [|done]. apply unexpired_subset.
  - eapply payloads_parse_subset; [|done]. apply del_subset.
  - apply Hadd.
  - apply Hadd.
Qed.

Lemma run_payloads_parse calls : ∀ (st : Store),
  (∀ t k d o dn f, (t, Trace.call_set k d o dn f) ∈ calls →
     Spec.serializable JSON_stringify JSON_parse d) →
  Spec.payloads_parse JSON_parse st →
  Spec.payloads_parse JSON_parse (Trace.run JSON_stringify JSON_parse calls st).
Proof.
  induction calls as [|[t c] calls IH]; intros st Hser Hok; [done|].
  simpl. apply IH.
  - intros t' k d o dn f Hin. apply (Hser t' k d o dn f). by right.
  - apply step_payloads_parse; [|done].
    intros k d o dn f ->. apply (Hser t k d o dn f). left.
Qed.

(** X11.  On a table built by calls of the class from the empty table
    (or from one whose payloads parse), with every value given to
    [set] one that JSON reads back, no read throws: [get], [getDel],
    [increment] and [decrement] return an entry or [null] for every
    key at every time. *)
Theorem reads_never_throw calls (st0 : Store) now key :
  Spec.payloads_parse JSON_parse st0 →
  (∀ t k d o dn f, (t, Trace.call_set k d o dn f) ∈ calls →
     Spec.serializable JSON_stringify JSON_parse d) →
  let st := Trace.run JSON_stringify JSON_parse calls st0 in
  (∃ o, KV.get JSON_parse now key st = Return o)
  ∧ (∃ o, (KV.getDel JSON_parse now key st).1 = Return o)
  ∧ (∃ o, (KV.increment JSON_parse now key st).1 = Return o)
  ∧ (∃ o, (KV.decrement JSON_parse now key st).1 = Return o).
Proof.
  intros Hok0 Hser st.
  pose proof (run_payloads_parse calls st0 Hser Hok0) as Hok. fold st in Hok.
  destruct (has_live_dec now key st) as [(r & Hl & Hlive)|Hn].
  - assert (∀ r', Row.json_data r' = Row.json_data r →
                  ∃ o, KV.format JSON_parse (Some r') = Return o) as Hfmt.
    { intros r' Hj. destruct (format_payload_ok r') as [e He]; [|by eexists].
      intros s Hs. rewrite Hj in Hs. by apply (Hok key r s). }
    rewrite (get_stored_live JSON_parse now key st r Hl Hlive).
    rewrite (getDel_live JSON_parse now key st r Hl Hlive).
    unfold KV.increment, KV.decrement.
    rewrite !(KV_addToCounter_live JSON_parse now key _ st r Hl Hlive).
    cbn [fst]. split_and!; by apply Hfmt.
  - rewrite (get_not_live JSON_parse now key st Hn).
    rewrite (getDel_not_live JSON_parse now key st Hn).
    unfold KV.increment, KV.decrement.
    rewrite !(KV_addToCounter_not_live JSON_parse now key _ st Hn).
    cbn [fst]. split_and!; by eexists.
Qed.

Lemma addToCounter_then_get now key delta (st : Store) r e :
  st !! key = Some r → Spec.is_live now r →
  (KV.addToCounter JSON_parse now key delta st).1 = Return (Some e) →
  KV.updatedAt e = Row.updated_at r * 1000
  ∧ KV.get JSON_parse now key (KV.addToCounter JSON_parse now key delta st).2
    = Return (Some (KV.mkEntry (KV.data e) (KV.counter e) (KV.expiresAt e)
                      (KV.createdAt e) (now * 1000))).
Proof.
  intros Hl Hlive.
  rewrite (KV_addToCounter_live _ _ _ _ _ _ Hl Hlive). simpl. intros Hf.
  rewrite (get_stored_live JSON_parse now key _
             (Row.set_updated_at now
                (Row.set_counter (sql_add (Row.counter r) delta) r)));
    [|apply lookup_insert_eq|by eapply is_live_expires_at].
  revert Hf. unfold KV.format. simpl.
  destruct (Row.json_data r) as [s0|]; [destruct (JSON_parse s0)|];
    intros [= <-]; done.
Qed.

(** X12.  The entry [increment] or [decrement] returns and the entry a
    [get] at the same time returns next carry the same data, counter,
    expiration and creation time.  They differ in [updatedAt]: the
    returned entry has the time of the update before the call, [get]
    the time of the call. *)
Theorem counter_result_then_get now key (st : Store) r :
  st !! key = Some r → Spec.is_live now r →
  (∀ e, (KV.increment JSON_parse now key st).1 = Return (Some e) →
     KV.updatedAt e = Row.updated_at r * 1000
     ∧ KV.get JSON_parse now key (KV.increment JSON_parse now key st).2
       = Return (Some (KV.mkEntry (KV.data e) (KV.counter e) (KV.expiresAt e)
                         (KV.createdAt e) (now * 1000))))
  ∧ (∀ e, (KV.decrement JSON_parse now key st).1 = Return (Some e) →
       KV.updatedAt e = Row.updated_at r * 1000
       ∧ KV.get JSON_parse now key (KV.decrement JSON_parse now key st).2
         = Return (Some (KV.mkEntry (KV.data e) (KV.counter e) (KV.expiresAt e)
                           (KV.createdAt e) (now * 1000)))).
Proof.
  intros Hl Hlive. split; intros e; by apply addToCounter_then_get.
Qed.

(** X13.  What [get] shows of a stored expiration.  With none stored
    the entry has [expiresAt] [null].  With a whole second [s] stored,
    [s] lies after the time of the call; an [expiresAt] that is a valid
    date is the time [s * 1000] ms and so has not passed; and with the
    clock at or after the epoch [expiresAt] is [new Date(s * 1000)],
    which is Invalid Date when [s * 1000] is beyond the range of dates
    (the test [expires_at ? ... : null] does not take a stored
    expiration for none). *)
Theorem get_expiresAt_future now key (st : Store) e :
  KV.get JSON_parse now key st = Return (Some e) →
  ∃ r, st !! key = Some r
       ∧ KV.expiresAt e = KV.format_expiresAt (Row.expires_at r)
       ∧ (Row.expires_at r = None → KV.expiresAt e = None)
       ∧ (∀ s, Row.expires_at r = Some (INTEGER s) →
            now < s
            ∧ (∀ x, KV.expiresAt e = Some (KV.Time x) →
                 x = s * 1000 ∧ now * 1000 < x ∧ Z.abs x ≤ KV.MAX_TIME)
            ∧ (0 ≤ now → KV.expiresAt e = Some (KV.new_Date (s * 1000)))).
Proof.
  unfold KV.get. destruct (select now key st) as [r|] eqn:E; [|done].
  apply select_Some in E as [Hl Hlive]. intros Hf.
  assert (KV.expiresAt e = KV.format_expiresAt (Row.expires_at r)) as Hexp.
  { revert Hf. unfold KV.format.
    destruct (Row.json_data r) as [s0|]; [destruct (JSON_parse s0)|];
      intros [= <-]; done. }
  exists r. split; [done|]. split; [done|]. rewrite Hexp. split.
  - by intros ->.
  - intros s Hs. rewrite Hs.
    assert (now < s) as Hlt.
    { destruct Hlive as [Hnone|(v & Hv & Hlt)]; [congruence|].
      rewrite Hs in Hv. by injection Hv as <-. }
    split; [done|]. unfold KV.format_expiresAt. split.
    + intros x. case_bool_decide; [done|]. unfold KV.new_Date.
      destruct (Z.leb_spec (Z.abs (s * 1000)) KV.MAX_TIME); [|done].
      intros [= <-]. lia.
    + intros Hnow. by rewrite bool_decide_eq_false_2 by lia.
Qed.

End Results.

(** Two values are set and one is incremented; every read returns. *)
Lemma reads_never_throw_witness :
  Spec.payloads_parse Booleans.parse ∅
  ∧ ∃ o, KV.get Booleans.parse 80 "k"
           (Trace.run Booleans.stringify Booleans.parse
              [(60, Trace.call_set "k" (Some true) KV.no_opts 60000 None);
               (61, Trace.call_set "j" None (Samples.ttl_opts 5) 61000 None);
               (70, Trace.call_increment "k")] ∅) = Return o.
Proof.
  assert (Spec.payloads_parse Booleans.parse ∅) as Hok.
  { intros k r s Hl. by rewrite lookup_empty in Hl. }
  split; [exact Hok|].
  apply (reads_never_throw Booleans.stringify Booleans.parse _ ∅ 80 "k" Hok).
  intros t k d o dn f Hin.
  repeat (apply elem_of_cons in Hin as [[= -> -> -> -> -> ->]|Hin]; [reflexivity|]).
  apply elem_of_cons in Hin as [[=]|Hin]. by apply elem_of_nil in Hin.
Defined.

(** The row [c], last updated at time 30, is decremented at time 60. *)
Lemma counter_result_then_get_witness :
  Samples.abc !! "c" = Some (Row.mkResult None (Int 7) (Some 1000) 20 30)
  ∧ Spec.is_live 60 (Row.mkResult None (Int 7) (Some 1000) 20 30)
  ∧ (KV.decrement Booleans.parse 60 "c" Samples.abc).1
    = Return (Some (KV.mkEntry None (Int 6) (Some 1000000) 20000 30000))
  ∧ KV.get Booleans.parse 60 "c" (KV.decrement Booleans.parse 60 "c" Samples.abc).2
    = Return (Some (KV.mkEntry None (Int 6) (Some 1000000) 20000 60000)).
Proof.
  assert (Spec.is_live 60 (Row.mkResult None (Int 7) (Some 1000) 20 30)) as Hlive.
  { right. exists 1000. split; [reflexivity|simpl; lia]. }
  assert ((KV.decrement Booleans.parse 60 "c" Samples.abc).1
          = Return (Some (KV.mkEntry None (Int 6) (Some 1000000) 20000 30000)))
    as Hret by reflexivity.
  pose proof (counter_result_then_get Booleans.parse 60 "c" Samples.abc _
                eq_refl Hlive) as [_ Hdec].
  split; [reflexivity|]. split; [exact Hlive|]. split; [exact Hret|].
  exact (proj2 (Hdec _ Hret)).
Defined.

(** [c] expires at 1000 and is read at 60. *)
Lemma get_expiresAt_future_witness :
  KV.get Booleans.parse 60 "c" Samples.abc
  = Return (Some (KV.mkEntry None (Int 7) (Some 1000000) 20000 30000))
  ∧ ∃ r, Samples.abc !! "c" = Some r
         ∧ ∀ s, Row.expires_at r = Some (INTEGER s) →
                60 < s ∧ Some (KV.new_Date 1000000) = Some (KV.new_Date (s * 1000)).
Proof.
  assert (KV.get Booleans.parse 60 "c" Samples.abc
          = Return (Some (KV.mkEntry None (Int 7) (Some 1000000) 20000 30000)))
    as Hget by reflexivity.
  split; [exact Hget|].
  destruct (get_expiresAt_future Booleans.parse 60 "c" Samples.abc _ Hget)
    as (r & Hl & _ & _ & Hs).
  exists r. split; [exact Hl|]. intros s Hr.
  destruct (Hs s Hr) as (Hlt & _ & Hdate). split; [exact Hlt|].
  apply Hdate. lia.
Defined.

(** ** Rows written past the class *)

(** The direct insert of the tests, with its trigger run. *)
Lemma Tests_insert_runs now a (st : Store) :
  Tests.insert now a st
  = match select now (Tests.key a) st with
    | Some _ => inl (SQLiteError SQLITE_CONSTRAINT_PRIMARYKEY)
    | None =>
        inr (<[Tests.key a :=
                 Row.mkResult (Tests.json_data a) (Int (Tests.counter a))
                   (INTEGER <$> Tests.expires_at a) (Tests.created_at a) now]>
               (Spec.unexpired now st))
    end.
Proof.
  unfold Tests.insert, select. rewrite cleanup_expired_on_insert_unexpired.
  destruct (st !! Tests.key a) as [r|] eqn:Hl.
  - rewrite live_not_expired. destruct (expired now r) eqn:He; simpl.
    + by rewrite (proj2 (lookup_unexpired_None now st (Tests.key a)))
        by congruence.
    + by rewrite (proj2 (lookup_unexpired_Some now st (Tests.key a) r)).
  - by rewrite (proj2 (lookup_unexpired_None now st (Tests.key a))) by congruence.
Qed.

Section DirectInsert.

Context {Json : Type}.
Variable JSON_stringify : Json → string.
Variable JSON_parse : string → outcome (option Json).

(** X14.  The tests "doesn't return expired values", "returns null if
    counter doesn't exist or is expired" and "deletes expired value
    before setting", for all values.  A row inserted directly with an
    expiration that has passed is stored as given, yet at that time
    and later [get], [getDel], [increment] and [decrement] of its key
    return [null] and leave it where it is, and a [set] of the key
    without the replace option returns [true], after which [get]
    returns the new value with counter 0. *)
Theorem direct_insert_expired now now' a e (st st' : Store) :
  Tests.expires_at a = Some e → e ≤ now → now ≤ now' →
  Tests.insert now a st = inr st' →
  st' !! Tests.key a
  = Some (Row.mkResult (Tests.json_data a) (Int (Tests.counter a)) (Some e)
            (Tests.created_at a) now)
  ∧ KV.get JSON_parse now' (Tests.key a) st' = Return None
  ∧ KV.getDel JSON_parse now' (Tests.key a) st' = (Return None, st')
  ∧ KV.increment JSON_parse now' (Tests.key a) st' = (Return None, st')
  ∧ KV.decrement JSON_parse now' (Tests.key a) st' = (Return None, st')
  ∧ (∀ Date_now data,
       Spec.serializable JSON_stringify JSON_parse data →
       let res := KV.set JSON_stringify Date_now None now' (Tests.key a) data
                    KV.no_opts st' in
       res.1 = Return true
       ∧ ∀ t, KV.get JSON_parse t (Tests.key a) res.2
              = Return (Some (KV.mkEntry data (Int 0) None
                                (now' * 1000) (now' * 1000)))).
Proof.
  intros Hexp He Hle Hins. rewrite Tests_insert_runs in Hins.
  destruct (select now (Tests.key a) st); [done|]. injection Hins as <-.
  rewrite Hexp.
  set (st' := <[Tests.key a := _]> _).
  assert (st' !! Tests.key a
          = Some (Row.mkResult (Tests.json_data a) (Int (Tests.counter a)) (Some e)
                    (Tests.created_at a) now)) as Hrow
    by apply lookup_insert_eq.
  assert (¬ Spec.has_live now' (Tests.key a) st') as Hdead.
  { apply (expired_not_has_live now' _ st' _ Hrow).
    exists (INTEGER e). split; [done|]. simpl. lia. }
  split_and!; [done| | | | |].
  - by apply get_not_live.
  - by apply getDel_not_live.
  - by apply KV_addToCounter_not_live.
  - by apply KV_addToCounter_not_live.
  - intros Date_now data Hser res.
    assert (res = (Return true,
                   <[Tests.key a :=
                       new_row now' (KV.set_jsonData JSON_stringify data) None]>
                     (Spec.unexpired now' st'))) as Hres.
    { unfold res. rewrite set_runs. simpl.
      by rewrite (proj2 (select_None _ _ _) Hdead). }
    split; [by rewrite Hres|]. intros t.
    rewrite (get_stored_live JSON_parse t (Tests.key a) res.2
               (new_row now' (KV.set_jsonData JSON_stringify data) None)).
    + by apply format_new_row.
    + rewrite Hres. apply lookup_insert_eq.
    + by left.
Qed.

End DirectInsert.

(** The rows of the tests: created 10 s and expired 5 s before the
    insert at time 100. *)
Lemma direct_insert_expired_witness :
  Tests.insert 100 (Tests.mkInsertArgs "test-key-1" (Some "test-value") 0 90 (Some 95))
    ∅
  = inr (<["test-key-1" := Row.mkResult (Some "test-value") (Int 0) (Some 95) 90 100]>
           ∅)
  ∧ KV.get Booleans.parse 100 "test-key-1"
      (<["test-key-1" := Row.mkResult (Some "test-value") (Int 0) (Some 95) 90 100]>
         ∅)
    = Return None
  ∧ (KV.set Booleans.stringify 100000 None 100 "test-key-1" (Some true) KV.no_opts
       (<["test-key-1" := Row.mkResult (Some "test-value") (Int 0) (Some 95) 90 100]>
          ∅)).1
    = Return true.
Proof.
  assert (Tests.insert 100
            (Tests.mkInsertArgs "test-key-1" (Some "test-value") 0 90 (Some 95)) ∅
          = inr (<["test-key-1" :=
                     Row.mkResult (Some "test-value") (Int 0) (Some 95) 90 100]> ∅))
    as Hins by reflexivity.
  pose proof (direct_insert_expired Booleans.stringify Booleans.parse 100 100
                (Tests.mkInsertArgs "test-key-1" (Some "test-value") 0 90 (Some 95))
                95 ∅ _ eq_refl ltac:(lia) ltac:(lia) Hins)
    as (_ & Hget & _ & _ & _ & Hset).
  split; [exact Hins|]. split; [exact Hget|].
  apply (Hset 100000 (Some true)). reflexivity.
Defined.

(** ** Expired rows are not seen *)

Lemma unexpired_later now now' (st : Store) :
  now ≤ now' → Spec.unexpired now' (Spec.unexpired now st) = Spec.unexpired now' st.
Proof.
  intros Hle. apply map_eq. intros k. apply option_eq. intros r.
  rewrite !lookup_unexpired_Some. split; [tauto|]. intros [Hl He].
  split_and!; [done| |done]. destruct (expired now r) eqn:E; [|done].
  apply expired_is_expired, (is_expired_mono now now') in E; [|done].
  apply expired_is_expired in E. congruence.
Qed.

Lemma select_unexpired now key (st : Store) :
  select now key (Spec.unexpired now st) = select now key st.
Proof.
  unfold select. destruct (st !! key) as [r|] eqn:Hl.
  - destruct (expired now r) eqn:He.
    + rewrite (proj2 (lookup_unexpired_None now st key)) by congruence.
      by rewrite live_not_expired, He.
    + by rewrite (proj2 (lookup_unexpired_Some now st key r)).
  - by rewrite (proj2 (lookup_unexpired_None now st key)) by congruence.
Qed.

Lemma has_live_unexpired now key (st : Store) :
  Spec.has_live now key (Spec.unexpired now st) ↔ Spec.has_live now key st.
Proof.
  unfold Spec.has_live. setoid_rewrite <- select_Some.
  by rewrite select_unexpired.
Qed.

Lemma unexpired_insert_unexpired now k r (st : Store) :
  Spec.unexpired now (<[k := r]> (Spec.unexpired now st))
  = Spec.unexpired now (<[k := r]> st).
Proof.
  apply map_eq. intros k'. apply option_eq. intros r'.
  rewrite !lookup_unexpired_Some, !lookup_insert_Some, lookup_unexpired_Some.
  tauto.
Qed.

Lemma lookup_unexpired_del now (ks : list string) (st : Store) k r :
  Spec.unexpired now (KV.del now ks st) !! k = Some r
  ↔ st !! k = Some r ∧ expired now r = false ∧ k ∉ ks.
Proof.
  rewrite lookup_unexpired_Some.
  destruct (stored_or_not ks st) as [Hs|Hnone].
  - rewrite (del_lookup now ks st k r Hs), <- expired_is_expired.
    destruct (expired now r); intuition congruence.
  - rewrite (del_nothing_stored _ _ _ Hnone). split; [|tauto].
    intros [Hl He]. split_and!; [done..|]. intros Hin.
    rewrite (Hnone k Hin) in Hl. done.
Qed.

Section Unobservable.

Context {Json : Type}.
Variable JSON_stringify : Json → string.
Variable JSON_parse : string → outcome (option Json).

Lemma result_unexpired now c (st : Store) :
  Trace.result JSON_stringify JSON_parse now c (Spec.unexpired now st)
  = Trace.result JSON_stringify JSON_parse now c st.
Proof.
  assert (∀ k d, (KV.addToCounter JSON_parse now k d (Spec.unexpired now st)).1
                 = (KV.addToCounter JSON_parse now k d st).1) as Hadd.
  { intros k d. destruct (has_live_dec now k st) as [(r & Hl & Hlive)|Hn].
    - rewrite (KV_addToCounter_live _ _ _ _ st r Hl Hlive).
      rewrite (KV_addToCounter_live _ _ _ _ (Spec.unexpired now st) r); [done| |done].
      apply lookup_unexpired_Some. split; [done|].
      apply live_is_live in Hlive. rewrite live_not_expired in Hlive.
      by destruct (expired now r).
    - rewrite (KV_addToCounter_not_live _ _ _ _ st Hn).
      rewrite KV_addToCounter_not_live; [done|]. by rewrite has_live_unexpired. }
  destruct c as [k|k|k d o dn f|ks|k|k]; simpl.
  - unfold KV.get. by rewrite select_unexpired.
  - f_equal. destruct (has_live_dec now k st) as [(r & Hl & Hlive)|Hn].
    + rewrite (getDel_live _ _ _ st r Hl Hlive).
      rewrite (getDel_live _ _ _ (Spec.unexpired now st) r); [done| |done].
      apply lookup_unexpired_Some. split; [done|].
      apply live_is_live in Hlive. rewrite live_not_expired in Hlive.
      by destruct (expired now r).
    + rewrite (getDel_not_live _ _ _ st Hn).
      rewrite getDel_not_live; [done|]. by rewrite has_live_unexpired.
  - destruct f as [e|].
    + unfold KV.set, insertReplace, insertIgnore.
      by destruct (KV.truthy (KV.opt_replace o)).
    + rewrite !set_runs. simpl. rewrite select_unexpired.
      destruct (KV.truthy (KV.opt_replace o)); [done|].
      by destruct (select now k st).
  - done.
  - unfold KV.increment. by rewrite Hadd.
  - unfold KV.decrement. by rewrite Hadd.
Qed.

Lemma step_unexpired now c (st : Store) :
  Spec.unexpired now
    (Trace.step JSON_stringify JSON_parse now c (Spec.unexpired now st))
  = Spec.unexpired now (Trace.step JSON_stringify JSON_parse now c st).
Proof.
  assert (∀ k d,
            Spec.unexpired now
              (KV.addToCounter JSON_parse now k d (Spec.unexpired now st)).2
            = Spec.unexpired now (KV.addToCounter JSON_parse now k d st).2) as Hadd.
  { intros k d. destruct (has_live_dec now k st) as [(r & Hl & Hlive)|Hn].
    - rewrite (KV_addToCounter_live _ _ _ _ st r Hl Hlive).
      rewrite (KV_addToCounter_live _ _ _ _ (Spec.unexpired now st) r);
        [apply unexpired_insert_unexpired| |done].
      apply lookup_unexpired_Some. split; [done|].
      apply live_is_live in Hlive. rewrite live_not_expired in Hlive.
      by destruct (expired now r).
    - rewrite (KV_addToCounter_not_live _ _ _ _ st Hn).
      rewrite KV_addToCounter_not_live by (by rewrite has_live_unexpired).
      apply unexpired_idemp. }
  destruct c as [k|k|k d o dn f|ks|k|k]; simpl.
  - apply unexpired_idemp.
  - destruct (has_live_dec now k st) as [(r & Hl & Hlive)|Hn].
    + rewrite (getDel_live _ _ _ st r Hl Hlive).
      rewrite (getDel_live _ _ _ (Spec.unexpired now st) r); [| |done].
      * simpl. by rewrite unexpired_idemp.
      * apply lookup_unexpired_Some. split; [done|].
        apply live_is_live in Hlive. rewrite live_not_expired in Hlive.
        by destruct (expired now r).
    + rewrite (getDel_not_live _ _ _ st Hn).
      rewrite getDel_not_live by (by rewrite has_live_unexpired).
      apply unexpired_idemp.
  - destruct f as [e|].
    + unfold KV.set, insertReplace, insertIgnore.
      destruct (KV.truthy (KV.opt_replace o)); apply unexpired_idemp.
    + rewrite !set_runs. simpl. rewrite select_unexpired, unexpired_idemp.
      destruct (KV.truthy (KV.opt_replace o)); [done|].
      destruct (select now k st); [apply unexpired_idemp|done].
  - apply map_eq. intros k. apply option_eq. intros r.
    rewrite !lookup_unexpired_del, lookup_unexpired_Some. tauto.
  - apply Hadd.
  - apply Hadd.
Qed.

Lemma same_live_step now c (st1 st2 : Store) :
  Spec.same_live now st1 st2 →
  Trace.result JSON_stringify JSON_parse now c st1
  = Trace.result JSON_stringify JSON_parse now c st2
  ∧ Spec.same_live now (Trace.step JSON_stringify JSON_parse now c st1)
      (Trace.step JSON_stringify JSON_parse now c st2).
Proof.
  unfold Spec.same_live. intros Hsame. split.
  - by rewrite <- (result_unexpired now c st1), Hsame, result_unexpired.
  - by rewrite <- (step_unexpired now c st1), Hsame, step_unexpired.
Qed.

Lemma same_live_later now now' (st1 st2 : Store) :
  now ≤ now' → Spec.same_live now st1 st2 → Spec.same_live now' st1 st2.
Proof.
  unfold Spec.same_live. intros Hle Hsame.
  by rewrite <- (unexpired_later now now' st1), Hsame, unexpired_later.
Qed.

(** X16.  Expired rows that are still stored are not seen.  Two tables
    that hold the same rows apart from expired ones give the same
    result to every call, and after it still hold the same rows apart
    from expired ones; so, with a clock that does not run backwards,
    they give the same results to every sequence of calls.  In
    particular a table and the same table with its expired rows
    removed cannot be told apart through the class. *)
Theorem expired_rows_unobservable :
  (∀ now c (st1 st2 : Store), Spec.same_live now st1 st2 →
     Trace.result JSON_stringify JSON_parse now c st1
     = Trace.result JSON_stringify JSON_parse now c st2
     ∧ Spec.same_live now (Trace.step JSON_stringify JSON_parse now c st1)
         (Trace.step JSON_stringify JSON_parse now c st2))
  ∧ (∀ calls t0 (st1 st2 : Store), Spec.monotone t0 calls →
       Spec.same_live t0 st1 st2 →
       Trace.results JSON_stringify JSON_parse calls st1
       = Trace.results JSON_stringify JSON_parse calls st2)
  ∧ (∀ now (st : Store), Spec.same_live now st (Spec.unexpired now st)).
Proof.
  split_and!.
  - apply same_live_step.
  - induction calls as [|[t c] calls IH]; intros t0 st1 st2 Hmono Hsame; [done|].
    destruct Hmono as [Hle Hmono]. apply (same_live_later t0 t) in Hsame; [|done].
    destruct (same_live_step t c st1 st2 Hsame) as [Hres Hstep].
    simpl. rewrite Hres. f_equal. by apply (IH t).
  - intros now st. unfold Spec.same_live. by rewrite unexpired_idemp.
Qed.

(** X15.  [get(k)] throws exactly when the live row of [k] holds a
    payload that [JSON.parse] rejects, and throws that error; an
    expired row never makes it throw.  [getDel], [increment] and
    [decrement] of such a row throw the same error after their
    statement has run: the row is removed, or its counter changed, all
    the same. *)
Theorem reads_throw_after_writing now key (st : Store) x :
  (KV.get JSON_parse now key st = Throw x
   ↔ ∃ r s, st !! key = Some r ∧ Spec.is_live now r
            ∧ Row.json_data r = Some s ∧ JSON_parse s = Throw x)
  ∧ (∀ r s, st !! key = Some r → Spec.is_live now r →
       Row.json_data r = Some s → JSON_parse s = Throw x →
       KV.getDel JSON_parse now key st
       = (Throw x, delete key (Spec.unexpired now st))
       ∧ KV.increment JSON_parse now key st
         = (Throw x,
            <[key := Row.set_updated_at now
                       (Row.set_counter (sql_add (Row.counter r) 1) r)]> st)
       ∧ KV.decrement JSON_parse now key st
         = (Throw x,
            <[key := Row.set_updated_at now
                       (Row.set_counter (sql_add (Row.counter r) (-1)) r)]> st)).
Proof.
  assert (∀ r s, Row.json_data r = Some s → JSON_parse s = Throw x →
            ∀ c, KV.format JSON_parse (Some (Row.set_counter c r)) = Throw x)
    as Hfmt.
  { intros r s Hj Hp c. unfold KV.format. simpl. by rewrite Hj, Hp. }
  split.
  - split.
    + unfold KV.get. destruct (select now key st) as [r|] eqn:E; [|done].
      apply select_Some in E as [Hl Hlive]. unfold KV.format.
      destruct (Row.json_data r) as [s|] eqn:Hj; [|done].
      destruct (JSON_parse s) eqn:Hp; [done|]. intros [= ->]. by exists r, s.
    + intros (r & s & Hl & Hlive & Hj & Hp).
      rewrite (get_stored_live JSON_parse now key st r Hl Hlive).
      unfold KV.format. by rewrite Hj, Hp.
  - intros r s Hl Hlive Hj Hp. unfold KV.increment, KV.decrement.
    rewrite (getDel_live _ _ _ _ _ Hl Hlive).
    rewrite !(KV_addToCounter_live _ _ _ _ _ _ Hl Hlive).
    rewrite !(Hfmt r s Hj Hp). split_and!; [|done..].
    f_equal. unfold KV.format. by rewrite Hj, Hp.
Qed.

(** X17.  Time alone only makes an entry disappear: with the table
    untouched, a later [get(k)] returns what the earlier one returned
    or [null]. *)
Theorem get_over_time now now' key (st : Store) :
  now ≤ now' →
  KV.get JSON_parse now' key st = KV.get JSON_parse now key st
  ∨ KV.get JSON_parse now' key st = Return None.
Proof.
  intros Hle. destruct (has_live_dec now' key st) as [(r & Hl & Hlive)|Hn].
  - left. rewrite (get_stored_live JSON_parse now' key st r Hl Hlive).
    symmetry. apply get_stored_live; [done|].
    destruct Hlive as [?|(e & He & Hlt)]; [by left|]. right. exists e.
    split; [done|]. by eapply after_mono.
  - right. by apply get_not_live.
Qed.

End Unobservable.

(** The table [abc], whose row [b] has expired, and the same table
    without [b], under the same calls. *)
Lemma expired_rows_unobservable_witness :
  Spec.monotone 60 [(60, Trace.call_get "b");
                    (61, Trace.call_set "b" (Some true) KV.no_opts 61000 None);
                    (62, Trace.call_del ["zz"]);
                    (63, Trace.call_increment "b")]
  ∧ Spec.same_live 60 Samples.abc (delete "b" Samples.abc)
  ∧ Trace.results Booleans.stringify Booleans.parse
      [(60, Trace.call_get "b");
       (61, Trace.call_set "b" (Some true) KV.no_opts 61000 None);
       (62, Trace.call_del ["zz"]);
       (63, Trace.call_increment "b")] Samples.abc
    = Trace.results Booleans.stringify Booleans.parse
        [(60, Trace.call_get "b");
         (61, Trace.call_set "b" (Some true) KV.no_opts 61000 None);
         (62, Trace.call_del ["zz"]);
         (63, Trace.call_increment "b")] (delete "b" Samples.abc).
Proof.
  assert (Spec.monotone 60
            [(60, Trace.call_get "b");
             (61, Trace.call_set "b" (Some true) KV.no_opts 61000 None);
             (62, Trace.call_del ["zz"]);
             (63, Trace.call_increment (Json:=bool) "b")]) as Hmono
    by (simpl; lia).
  assert (Spec.same_live 60 Samples.abc (delete "b" Samples.abc)) as Hsame
    by (vm_compute; reflexivity).
  split; [exact Hmono|]. split; [exact Hsame|].
  exact (proj1 (proj2 (expired_rows_unobservable Booleans.stringify Booleans.parse))
           _ 60 _ _ Hmono Hsame).
Defined.

(** A live row with the payload of the tests, which is not JSON. *)
Lemma reads_throw_after_writing_witness :
  KV.get Booleans.parse 40 "b" Samples.abc = Throw SyntaxError
  ∧ KV.getDel Booleans.parse 40 "b" Samples.abc
    = (Throw SyntaxError, delete "b" (Spec.unexpired 40 Samples.abc))
  ∧ KV.get Booleans.parse 60 "b" Samples.abc = Return None.
Proof.
  pose proof (reads_throw_after_writing Booleans.parse 40 "b" Samples.abc SyntaxError)
    as [Hget Hwrite].
  assert (Spec.is_live 40 (Row.mkResult (Some "test-value") (Int 1) (Some 50) 10 10))
    as Hlive.
  { right. exists 50. split; [reflexivity|simpl; lia]. }
  split_and!.
  - apply Hget. exists (Row.mkResult (Some "test-value") (Int 1) (Some 50) 10 10),
      "test-value". split_and!; [reflexivity|exact Hlive|reflexivity..].
  - apply (Hwrite (Row.mkResult (Some "test-value") (Int 1) (Some 50) 10 10)
             "test-value" eq_refl Hlive eq_refl eq_refl).
  - reflexivity.
Defined.

(** [c] expires at 1000: read at 60 and 999, gone at 1000. *)
Lemma get_over_time_witness :
  60 ≤ 999
  ∧ KV.get Booleans.parse 999 "c" Samples.abc = KV.get Booleans.parse 60 "c" Samples.abc
  ∧ KV.get Booleans.parse 1000 "c" Samples.abc = Return None.
Proof.
  split; [lia|]. split.
  - destruct (get_over_time Booleans.parse 60 999 "c" Samples.abc ltac:(lia))
      as [H|H]; [exact H|discriminate H].
  - reflexivity.
Defined.

End KVLaws.
